(** * Verification of the cargo-scan audit policy engine and effect scanner

    Shallow embedding of [src/rust-src/src/policy.rs] (policy language,
    lookup index, edge checker) and of [src/src/scanner.rs] (effect scanner,
    call-graph bookkeeping).  Rust [HashMap]/[HashSet] are stdpp's [gmap] and
    [gset]; a Rust panic ([unimplemented!], [unwrap] of [None],
    a failed [debug_assert!]) is the [None] / [Panic] outcome. *)

From Stdlib Require Import String Ascii List Bool.
From stdpp Require Import base gmap sets list strings.

Import ListNotations.
Open Scope string_scope.

(** A Rust [Result<T, E>]. *)
Inductive result (T E : Type) : Type :=
| Ok (v : T)
| Err (e : E).
Arguments Ok {T E} v.
Arguments Err {T E} e.

Definition is_err {T E} (r : result T E) : bool :=
  match r with Ok _ => false | Err _ => true end.

(* ===================================================================== *)
(** ** policy.rs *)
(* ===================================================================== *)
Module PolicyModel.

(** [ident::Path] (aliased [IdentPath] in policy.rs) is a newtype around a
    [String] with structural equality; it is written [string] below. *)

(** [ident::FnCall]: a function path together with an argument pattern. *)
Record FnCall := mkFnCall { fn_path : string; fn_args : string }.

(** [FnCall::new] and [FnCall::new_all] (the wildcard argument ""). *)
Definition FnCall_new (path args : string) : FnCall := mkFnCall path args.
Definition FnCall_new_all (path : string) : FnCall := mkFnCall path "".

(** [enum Statement] *)
Inductive Statement :=
| Allow (region effect : FnCall)
| Require (region effect : FnCall)
| Trust (region : FnCall).

Definition Statement_allow_simple (path effect : string) : Statement :=
  Allow (FnCall_new_all path) (FnCall_new_all effect).
Definition Statement_require_simple (path effect : string) : Statement :=
  Require (FnCall_new_all path) (FnCall_new_all effect).
Definition Statement_allow (path args : string) (effect : FnCall) : Statement :=
  Allow (FnCall_new path args) effect.
Definition Statement_require (path args : string) (effect : FnCall) : Statement :=
  Require (FnCall_new path args) effect.
Definition Statement_trust (path : string) : Statement :=
  Trust (FnCall_new_all path).

(** [struct Policy] *)
Record Policy := mkPolicy {
  crate_name : string;
  crate_version : string;
  policy_version : string;
  statements : list Statement
}.

Definition Policy_new (cn cv pv : string) : Policy := mkPolicy cn cv pv [].

(** [Policy::add_statement]: [self.statements.push(s)]. *)
Definition Policy_add_statement (p : Policy) (s : Statement) : Policy :=
  mkPolicy (crate_name p) (crate_version p) (policy_version p)
           (statements p ++ [s])%list.

Definition Policy_allow_simple (p : Policy) (path effect : string) : Policy :=
  Policy_add_statement p (Statement_allow_simple path effect).
Definition Policy_require_simple (p : Policy) (path effect : string) : Policy :=
  Policy_add_statement p (Statement_require_simple path effect).
Definition Policy_allow (p : Policy) (path args : string) (eff : FnCall) : Policy :=
  Policy_add_statement p (Statement_allow path args eff).
Definition Policy_require (p : Policy) (path args : string) (eff : FnCall) : Policy :=
  Policy_add_statement p (Statement_require path args eff).
Definition Policy_trust (p : Policy) (path : string) : Policy :=
  Policy_add_statement p (Statement_trust path).

(** [struct PolicyLookup] *)
Record PolicyLookup := mkLookup {
  allow_sets : gmap string (gset string);
  require_sets : gmap string (gset string)
}.

Definition PolicyLookup_empty : PolicyLookup := mkLookup ∅ ∅.

(** [map.entry(k).or_default().insert(v)] *)
Definition entry_insert (m : gmap string (gset string)) (k v : string)
  : gmap string (gset string) :=
  <[k := default ∅ (m !! k) ∪ {[v]}]> m.

(** The set stored at [k], or the empty set when [k] has no entry. *)
Definition set_of (m : gmap string (gset string)) (k : string) : gset string :=
  default ∅ (m !! k).

(** [PolicyLookup::add_statement]; [None] is the panic of
    [unimplemented!()] on a [Trust] statement. *)
Definition add_statement (l : PolicyLookup) (stmt : Statement)
  : option PolicyLookup :=
  match stmt with
  | Allow r e =>
      let caller := fn_path r in
      let eff := fn_path e in
      Some (mkLookup (entry_insert (allow_sets l) caller eff) (require_sets l))
  | Require r e =>
      let caller := fn_path r in
      let eff := fn_path e in
      let req := entry_insert (require_sets l) caller eff in
      (* require encompasses allow *)
      Some (mkLookup (entry_insert (allow_sets l) caller eff) req)
  | Trust _ => None
  end.

(** The [for stmt in &p.statements] loop of [from_policy]. *)
Fixpoint add_statements (l : PolicyLookup) (ss : list Statement)
  : option PolicyLookup :=
  match ss with
  | [] => Some l
  | s :: ss' =>
      match add_statement l s with
      | Some l' => add_statements l' ss'
      | None => None
      end
  end.

(** [PolicyLookup::from_policy] *)
Definition from_policy (p : Policy) : option PolicyLookup :=
  add_statements PolicyLookup_empty (statements p).

(** [PolicyLookup::mark_of_interest] *)
Definition mark_of_interest (l : PolicyLookup) (callee : string) : PolicyLookup :=
  mkLookup (allow_sets l) (entry_insert (require_sets l) callee callee).

(** [PolicyLookup::allow_list_contains] *)
Definition allow_list_contains (l : PolicyLookup) (caller effect : string)
  : result unit string :=
  match allow_sets l !! caller with
  | Some allow =>
      if bool_decide (effect ∈ allow) then Ok tt
      else Err ("Allow list for function " ++ caller ++ " missing effect " ++ effect)
  | None =>
      Err ("No allow list for function " ++ caller ++ " with effect " ++ effect)
  end.

(** [PolicyLookup::iter_requirements]: the elements of the callee's
    require set (in the set's iteration order), or nothing. *)
Definition iter_requirements (l : PolicyLookup) (callee : string) : list string :=
  match require_sets l !! callee with
  | Some require => elements require
  | None => []
  end.

(** The loop body of [check_edge] over the remaining requirements. *)
Fixpoint check_edge_loop (l : PolicyLookup) (caller : string)
    (reqs : list string) (error_list : list string) : list string :=
  match reqs with
  | [] => error_list
  | req :: reqs' =>
      let error_list' :=
        match allow_list_contains l caller req with
        | Ok _ => error_list
        | Err err => (error_list ++ [err])%list
        end in
      check_edge_loop l caller reqs' error_list'
  end.

(** [PolicyLookup::check_edge]: the final contents of [error_list]. *)
Definition check_edge (l : PolicyLookup) (caller callee : string)
    (error_list : list string) : list string :=
  check_edge_loop l caller (iter_requirements l callee) error_list.

(** The loop of [check_edge_bool], with its early [return false]. *)
Fixpoint check_edge_bool_loop (l : PolicyLookup) (caller : string)
    (reqs : list string) : bool :=
  match reqs with
  | [] => true
  | req :: reqs' =>
      if is_err (allow_list_contains l caller req) then false
      else check_edge_bool_loop l caller reqs'
  end.

(** [PolicyLookup::check_edge_bool] *)
Definition check_edge_bool (l : PolicyLookup) (caller callee : string) : bool :=
  check_edge_bool_loop l caller (iter_requirements l callee).

(** The diagnostics [check_edge] appends, in order. *)
Fixpoint edge_errors (l : PolicyLookup) (caller : string) (reqs : list string)
  : list string :=
  match reqs with
  | [] => []
  | req :: reqs' =>
      match allow_list_contains l caller req with
      | Ok _ => edge_errors l caller reqs'
      | Err err => err :: edge_errors l caller reqs'
      end
  end.

(** [ex_policy] and [ex_lookup] of the Rust test module. *)
Definition ex_policy : Policy := Policy_new "ex" "0.1" "0.1".

Definition ex_lookup (p : Policy) : option PolicyLookup :=
  match from_policy p with
  | Some l => Some (mark_of_interest (mark_of_interest l "libc::effect") "std::effect")
  | None => None
  end.

Definition edge_in (p : Policy) (caller callee : string) : option bool :=
  match ex_lookup p with
  | Some l => Some (check_edge_bool l caller callee)
  | None => None
  end.

End PolicyModel.

(* ===================================================================== *)
(** ** Loading a policy file: [Policy::from_file] *)
(* ===================================================================== *)
Module PolicyFile.
Import PolicyModel.

(** [rsplit_file_at_dot] of [std::path]: the text before and after the
    last ['.'] of a file name, if it has one. *)
Fixpoint rsplit_dot (s : list Ascii.ascii) : option (list Ascii.ascii * list Ascii.ascii) :=
  match s with
  | [] => None
  | c :: s' =>
      match rsplit_dot s' with
      | Some (before, after) => Some (c :: before, after)
      | None => if Ascii.eqb c "."%char then Some ([], s') else None
      end
  end.

(** The extension of a file name (a final path component): the text after
    the last ['.'], unless there is no dot, the only dot starts the name
    (as in [".toml"]), or the name is [".."]. *)
Definition file_extension (name : string) : option string :=
  if String.eqb name ".." then None else
  match rsplit_dot (list_ascii_of_string name) with
  | None => None
  | Some ([], _) => None
  | Some (_, after) => Some (string_of_list_ascii after)
  end.

(** A Unix path split at each ['/'] (empty pieces included). *)
Fixpoint split_slash (s : list Ascii.ascii) : list (list Ascii.ascii) :=
  match s with
  | [] => [[]]
  | c :: s' =>
      let rest := split_slash s' in
      if Ascii.eqb c "/"%char then [] :: rest
      else match rest with
           | r :: rs => (c :: r) :: rs
           | [] => [[c]]
           end
  end.

(** [std::path::Path::file_name] on Unix: the last of the path's
    components, if it is a normal one.  [Path::components] drops empty
    pieces (repeated and trailing separators) and ["."] pieces (a leading
    ["."] is kept as [CurDir], which is not a normal component either);
    a final [".."] ([ParentDir]) or a path of only separators ([RootDir])
    has no file name. *)
Definition file_name (path : string) : option string :=
  let comps := List.filter (fun c => negb (String.eqb c "") && negb (String.eqb c "."))
                 (map string_of_list_ascii (split_slash (list_ascii_of_string path))) in
  match rev comps with
  | c :: _ => if String.eqb c ".." then None else Some c
  | [] => None
  end.

(** [std::path::Path::extension]: the extension of the path's file name. *)
Definition extension (path : string) : option string :=
  match file_name path with
  | Some name => file_extension name
  | None => None
  end.

(** How a call of [from_file] ends. *)
Inductive LoadOutcome :=
| Loaded (p : Policy)       (* Ok(policy) *)
| LoadError (e : string)    (* Err(..), from [?] *)
| Panicked.                 (* the failed [debug_assert_eq!] *)

(** [Policy::from_file].  [debug_assertions] is the build profile
    ([debug_assert_eq!] is compiled only when it is set);
    [read_to_string] is [std::fs::read_to_string] and [toml_from_str] is
    [toml::from_str::<Policy>], both external to the repository. *)
Definition from_file (debug_assertions : bool)
    (read_to_string : string -> result string string)
    (toml_from_str : string -> result Policy string)
    (file : string) : LoadOutcome :=
  if debug_assertions && negb (bool_decide (extension file = Some "toml"))
  then Panicked
  else
    match read_to_string file with
    | Err e => LoadError e
    | Ok toml_str =>
        match toml_from_str toml_str with
        | Ok policy => Loaded policy
        | Err e => LoadError e
        end
    end.

End PolicyFile.

(* ===================================================================== *)
(** ** scanner.rs *)
(* ===================================================================== *)

(** The part of the [syn] syntax tree the scanner walks.  Source spans are
    abstract positions ([Span]); a [syn::Path] is its list of segments. *)
Module Syn.

Definition Ident := string.
Definition Span := nat.
Definition Path := list Ident.

Inductive Visibility := Public | Inherited.

(** An attribute: [#[cfg(..)]] with its token list printed as a string
    ([args.to_string()]), or any other attribute. *)
Inductive Attribute :=
| CfgList (args : string)
| OtherAttr.

(** [syn::Signature]: the fields the scanner reads. *)
Record Signature := mkSig {
  sig_unsafety : bool;
  sig_ident : Ident;
  sig_span : Span
}.

Inductive Member := Named (i : Ident) | Unnamed (idx : nat).
Inductive UnOp := Deref | Not | Neg.

(** [syn::Expr] (one constructor per variant [scan_expr] distinguishes;
    [Other] is every remaining variant), [syn::Stmt], [syn::Item],
    [syn::ImplItem] and [syn::ForeignItem]. *)
#[local] Unset Elimination Schemes.
Inductive Expr :=
| Array (elems : list Expr)
| Assign (left right : Expr)
| Async (stmts : list Stmt)
| Await (base : Expr)
| Binary (left right : Expr)
| Block (stmts : list Stmt)
| Break (e : option Expr)
| Call (func : Expr) (args : list Expr)
| Cast (e : Expr)
| Closure (sp : Span)
| Continue
| Field (base : Expr) (member : Member)
| ForLoop (e : Expr) (body : list Stmt)
| Group (e : Expr)
| If (cond : Expr) (then_branch : list Stmt) (else_branch : option Expr)
| Index (e index : Expr)
| Let (e : Expr)
| Lit
| Loop (body : list Stmt)
| Macro (sp : Span)
| Match (e : Expr) (arms : list (option Expr * Expr))
| MethodCall (receiver : Expr) (method : Ident) (args : list Expr)
| Paren (e : Expr)
| PathExpr (p : Path)
| Range (start end_ : option Expr)
| Reference (e : Expr)
| Repeat (e len : Expr)
| Return (e : option Expr)
| Struct (fields : list Expr) (rest : option Expr)
| Try (e : Expr)
| TryBlock (stmts : list Stmt)
| Tuple (elems : list Expr)
| Unary (op : UnOp) (e : Expr)
| Unsafe (stmts : list Stmt)
| Verbatim
| While (cond : Expr) (body : list Stmt)
| Yield (e : option Expr)
| Other
with Stmt :=
| Local (init : option (Expr * option Expr))   (* [let p = e else d;] *)
| ExprStmt (e : Expr)
| ItemStmt (i : Item)
| MacroStmt
with Item :=
| ItemMod (attrs : list Attribute) (ident : Ident) (content : option (list Item))
| ItemUse (tree : nat)
| ItemImpl (attrs : list Attribute) (unsafety : bool) (impl_id : nat)
    (trait_ : option Path) (self_ty_ident : option Ident) (items : list ImplItem)
| ItemFn (attrs : list Attribute) (vis : Visibility) (sig : Signature)
    (block : list Stmt)
| ItemTrait (attrs : list Attribute) (unsafety : bool) (ident : Ident)
| ItemForeignMod (attrs : list Attribute) (items : list ForeignItem)
| ItemMacro
| ItemOther
with ImplItem :=
| ImplFn (attrs : list Attribute) (vis : Visibility) (sig : Signature)
    (block : list Stmt)
| ImplMacro
| ImplVerbatim
| ImplOther
with ForeignItem :=
| ForeignFn (decl : nat)
| ForeignMacro
| ForeignOther.

End Syn.

Module ScannerModel.
Import Syn.

(** [ident::CanonicalPath]: its [::]-separated segments. *)
Definition CanonicalPath := list string.

(** Modelled from the spec: [CanonicalPath::pop_ident] (ident.rs is not
    under src/), which drops the trailing segment. *)
Definition pop_ident (p : CanonicalPath) : CanonicalPath := removelast p.

(** Modelled from the spec: the sink match that [EffectInstance::new_call]
    (effect.rs is not under src/) stores on a call: the first sink pattern
    that is equal to, or a prefix of, the callee path. *)
Definition sink_match (sinks : list CanonicalPath) (callee : CanonicalPath)
  : option CanonicalPath :=
  find (fun s => bool_decide (s `prefix_of` callee)) sinks.

(** [effect::Effect] *)
Inductive Effect :=
| SinkCall (callee : CanonicalPath) (ffi : option CanonicalPath)
    (is_unsafe : bool) (sink : option CanonicalPath)   (* [Effect::Call] *)
| FnPtrCreation
| StaticMut (target : CanonicalPath)
| StaticExt (target : CanonicalPath)
| RawPointer (target : CanonicalPath)
| UnionField (target : CanonicalPath)
| ClosureCreation.

(** [EffectInstance] (its source location is left out). *)
Record EffectInstance := mkEffectInstance {
  caller : CanonicalPath;
  callee : CanonicalPath;
  eff_type : Effect
}.

(** [FnDec] (its file and signature location are the span [fn_span]). *)
Record FnDec := mkFnDec {
  fn_name : CanonicalPath;
  fn_vis : Visibility;
  fn_span : Span
}.

Inductive BlockType := UnsafeExpr | UnsafeFn | NormalFn.

(** [EffectBlock] *)
Record EffectBlock := mkEffectBlock {
  block_type : BlockType;
  containing_fn : FnDec;
  block_effects : list EffectInstance
}.

Definition EffectBlock_push_effect (b : EffectBlock) (e : EffectInstance)
  : EffectBlock :=
  mkEffectBlock (block_type b) (containing_fn b) (block_effects b ++ [e])%list.

(** [ScanResults].  The call graph is its node labels, indexed by
    position ([NodeIndex]), and its edges; a [LoCTracker] is kept as its
    number of instances. *)
Record ScanResults := mkScanResults {
  effects : list EffectInstance;
  effect_blocks : list EffectBlock;
  unsafe_traits : list CanonicalPath;
  unsafe_impls : list (CanonicalPath * option CanonicalPath);
  pub_fns : gset CanonicalPath;
  fn_locs : gmap CanonicalPath Span;
  call_graph_nodes : list CanonicalPath;
  call_graph_edges : list (nat * nat);
  node_idxs : gmap CanonicalPath nat;
  skipped_macros : nat;
  skipped_conditional_code : nat;
  skipped_fn_calls : nat;
  skipped_other : nat
}.

Definition ScanResults_new : ScanResults :=
  mkScanResults [] [] [] [] ∅ ∅ [] [] ∅ 0 0 0 0.

(** [ScanResults::add_fn_dec]: [call_graph.add_node] appends a node and
    returns its index; [node_idxs.insert] overwrites an existing key. *)
Definition add_fn_dec (d : ScanResults) (f : FnDec) : ScanResults :=
  let name := fn_name f in
  let node_idx := length (call_graph_nodes d) in
  mkScanResults (effects d) (effect_blocks d) (unsafe_traits d) (unsafe_impls d)
    (match fn_vis f with Public => {[name]} ∪ pub_fns d | Inherited => pub_fns d end)
    (<[name := fn_span f]> (fn_locs d))
    (call_graph_nodes d ++ [name])%list
    (call_graph_edges d)
    (<[name := node_idx]> (node_idxs d))
    (skipped_macros d) (skipped_conditional_code d)
    (skipped_fn_calls d) (skipped_other d).

(** Updates of single fields of [ScanResults]. *)
Definition push_result_effect (d : ScanResults) (e : EffectInstance) : ScanResults :=
  mkScanResults (effects d ++ [e])%list (effect_blocks d) (unsafe_traits d)
    (unsafe_impls d) (pub_fns d) (fn_locs d) (call_graph_nodes d)
    (call_graph_edges d) (node_idxs d) (skipped_macros d)
    (skipped_conditional_code d) (skipped_fn_calls d) (skipped_other d).

Definition push_result_block (d : ScanResults) (b : EffectBlock) : ScanResults :=
  mkScanResults (effects d) (effect_blocks d ++ [b])%list (unsafe_traits d)
    (unsafe_impls d) (pub_fns d) (fn_locs d) (call_graph_nodes d)
    (call_graph_edges d) (node_idxs d) (skipped_macros d)
    (skipped_conditional_code d) (skipped_fn_calls d) (skipped_other d).

Definition push_unsafe_trait (d : ScanResults) (t : CanonicalPath) : ScanResults :=
  mkScanResults (effects d) (effect_blocks d) (unsafe_traits d ++ [t])%list
    (unsafe_impls d) (pub_fns d) (fn_locs d) (call_graph_nodes d)
    (call_graph_edges d) (node_idxs d) (skipped_macros d)
    (skipped_conditional_code d) (skipped_fn_calls d) (skipped_other d).

Definition push_unsafe_impl (d : ScanResults)
    (t : CanonicalPath * option CanonicalPath) : ScanResults :=
  mkScanResults (effects d) (effect_blocks d) (unsafe_traits d)
    (unsafe_impls d ++ [t])%list (pub_fns d) (fn_locs d) (call_graph_nodes d)
    (call_graph_edges d) (node_idxs d) (skipped_macros d)
    (skipped_conditional_code d) (skipped_fn_calls d) (skipped_other d).

(** [call_graph.add_edge(a, b, loc)] *)
Definition add_edge (d : ScanResults) (a b : nat) : ScanResults :=
  mkScanResults (effects d) (effect_blocks d) (unsafe_traits d)
    (unsafe_impls d) (pub_fns d) (fn_locs d) (call_graph_nodes d)
    (call_graph_edges d ++ [(a, b)])%list (node_idxs d) (skipped_macros d)
    (skipped_conditional_code d) (skipped_fn_calls d) (skipped_other d).

(** The skip trackers [skipped_macros], [skipped_conditional_code],
    [skipped_fn_calls], [skipped_other]. *)
Inductive Tracker := TMacros | TConditional | TFnCalls | TOther.
#[global] Instance Tracker_eq_dec : EqDecision Tracker.
Proof. solve_decision. Defined.

Definition tracker_add (d : ScanResults) (t : Tracker) : ScanResults :=
  let inc (t' : Tracker) (n : nat) := if decide (t = t') then S n else n in
  mkScanResults (effects d) (effect_blocks d) (unsafe_traits d)
    (unsafe_impls d) (pub_fns d) (fn_locs d) (call_graph_nodes d)
    (call_graph_edges d) (node_idxs d) (inc TMacros (skipped_macros d))
    (inc TConditional (skipped_conditional_code d))
    (inc TFnCalls (skipped_fn_calls d)) (inc TOther (skipped_other d)).

(** The answer of [resolve_path_type]. *)
Record PathType := mkPathType {
  is_function : bool; is_fn_ptr : bool; is_mut_static : bool
}.

(** The answer of [resolve_field_type]. *)
Record FieldType := mkFieldType { is_raw_ptr : bool; is_union_field : bool }.

(** The [Resolve] trait, as the scanner uses it through [FileResolver]:
    queries on the current resolver state [R] and the scope updates. *)
Class Resolve (R : Type) := {
  resolve_def : R -> Ident -> CanonicalPath;
  resolve_ident : R -> Ident -> CanonicalPath;
  resolve_path : R -> Path -> CanonicalPath;
  resolve_path_type : R -> Path -> PathType;
  resolve_ffi : R -> Path -> option CanonicalPath;
  resolve_field : R -> Ident -> CanonicalPath;
  resolve_field_index : R -> nat -> CanonicalPath;
  resolve_field_type : R -> Ident -> FieldType;
  resolve_method : R -> Ident -> CanonicalPath;
  resolve_unsafe_path : R -> Path -> bool;
  resolve_unsafe_ident : R -> Ident -> bool;
  scan_use : R -> nat -> R;
  scan_foreign_fn : R -> nat -> R;
  push_mod : R -> Ident -> R;
  pop_mod : R -> R;
  push_fn : R -> Ident -> R;
  pop_fn : R -> R;
  push_impl : R -> nat -> R;
  pop_impl : R -> R
}.

(** The two syntactic helpers the scanner calls outside the resolver:
    [hacky_resolver::create_closure_ident] (already split into a canonical
    path) and the identifier tokens of an expression's token stream
    ([quote::ToTokens], used by [scan_deref]). *)
Class SynHelpers := {
  create_closure_ident : Span -> option CanonicalPath;
  token_idents : Expr -> list Ident
}.

(** [struct Scanner]; the tops of the stacks [scope_effect_blocks] and
    [scope_fns] are the heads of the lists. *)
Record Scanner (R : Type) := mkScanner {
  resolver : R;
  scope_effect_blocks : list EffectBlock;
  scope_unsafe : nat;
  scope_assign_lhs : bool;
  scope_fns : list FnDec;
  data : ScanResults;
  sinks : list CanonicalPath
}.
Arguments mkScanner {R}.
Arguments resolver {R}.
Arguments scope_effect_blocks {R}.
Arguments scope_unsafe {R}.
Arguments scope_assign_lhs {R}.
Arguments scope_fns {R}.
Arguments data {R}.
Arguments sinks {R}.

Section Setters.
Context {R : Type}.
Definition set_resolver (s : Scanner R) (r : R) : Scanner R :=
  mkScanner r (scope_effect_blocks s) (scope_unsafe s) (scope_assign_lhs s)
    (scope_fns s) (data s) (sinks s).
Definition set_blocks (s : Scanner R) (bs : list EffectBlock) : Scanner R :=
  mkScanner (resolver s) bs (scope_unsafe s) (scope_assign_lhs s)
    (scope_fns s) (data s) (sinks s).
Definition set_unsafe (s : Scanner R) (n : nat) : Scanner R :=
  mkScanner (resolver s) (scope_effect_blocks s) n (scope_assign_lhs s)
    (scope_fns s) (data s) (sinks s).
Definition set_assign_lhs (s : Scanner R) (b : bool) : Scanner R :=
  mkScanner (resolver s) (scope_effect_blocks s) (scope_unsafe s) b
    (scope_fns s) (data s) (sinks s).
Definition set_fns (s : Scanner R) (fs : list FnDec) : Scanner R :=
  mkScanner (resolver s) (scope_effect_blocks s) (scope_unsafe s)
    (scope_assign_lhs s) fs (data s) (sinks s).
Definition set_data (s : Scanner R) (d : ScanResults) : Scanner R :=
  mkScanner (resolver s) (scope_effect_blocks s) (scope_unsafe s)
    (scope_assign_lhs s) (scope_fns s) d (sinks s).
End Setters.

(** The scanner's computations: state passing over [Scanner R], with
    [None] for a panic. *)
Definition ScanM (R A : Type) : Type := Scanner R -> option (A * Scanner R).

Definition sret {R A} (a : A) : ScanM R A := fun s => Some (a, s).
Definition sbind {R A B} (m : ScanM R A) (k : A -> ScanM R B) : ScanM R B :=
  fun s => match m s with Some (a, s') => k a s' | None => None end.
Definition get {R} : ScanM R (Scanner R) := fun s => Some (s, s).
Definition modify {R} (f : Scanner R -> Scanner R) : ScanM R unit :=
  fun s => Some (tt, f s).
Definition panic {R A} : ScanM R A := fun _ => None.

Notation "'let*' x := m 'in' k" := (sbind m (fun x => k))
  (at level 200, x name, m at level 100, k at level 200).
Notation "m ;; k" := (sbind m (fun _ => k)) (at level 100, right associativity).

(** [for y in xs { f(y) }] *)
Fixpoint for_each {R A} (f : A -> ScanM R unit) (xs : list A) : ScanM R unit :=
  match xs with
  | [] => sret tt
  | y :: xs' => f y ;; for_each f xs'
  end.

(** [if let Some(y) = o { f(y) }] *)
Definition for_opt {R A} (f : A -> ScanM R unit) (o : option A) : ScanM R unit :=
  match o with Some y => f y | None => sret tt end.

(** The double quote character. *)
Definition dq : string := String (Ascii.ascii_of_nat 34) EmptyString.

(** [Scanner::skip_cfg] *)
Definition skip_cfg (args : string) : bool :=
  String.prefix ("target_os = " ++ dq ++ "linux" ++ dq) args
  || String.prefix "not (feature =" args.

(** [Scanner::skip_attr] and [Scanner::skip_attrs] *)
Definition skip_attr (a : Attribute) : bool :=
  match a with CfgList args => skip_cfg args | OtherAttr => false end.
Definition skip_attrs (attrs : list Attribute) : bool := existsb skip_attr attrs.

Section Scan.
Context {R : Type} `{Resolve R} `{SynHelpers}.

(** [self.data.<tracker>.add(x)] *)
Definition track (t : Tracker) : ScanM R unit :=
  modify (fun s => set_data s (tracker_add (data s) t)).

Definition modify_resolver (f : R -> R) : ScanM R unit :=
  modify (fun s => set_resolver s (f (resolver s))).

Definition modify_unsafe (f : nat -> nat) : ScanM R unit :=
  modify (fun s => set_unsafe s (f (scope_unsafe s))).

(** Push an effect into the block on top of [scope_effect_blocks] (if
    any). *)
Definition push_into_top_block (bs : list EffectBlock) (e : EffectInstance)
  : list EffectBlock :=
  match bs with
  | b :: bs' => EffectBlock_push_effect b e :: bs'
  | [] => []
  end.

(** [self.data.effect_blocks.push(self.scope_effect_blocks.pop().unwrap())] *)
Definition pop_effect_block : ScanM R unit :=
  let* s := get in
  match scope_effect_blocks s with
  | [] => panic
  | b :: bs => modify (fun s => set_data (set_blocks s bs) (push_result_block (data s) b))
  end.

(** [Scanner::push_effect] *)
Definition push_effect (callee : CanonicalPath) (eff_type : Effect) : ScanM R unit :=
  let* s := get in
  let caller := match scope_fns s with
                | fn_dec :: _ => fn_name fn_dec
                | [] => pop_ident callee
                end in
  let eff := mkEffectInstance caller callee eff_type in
  modify (fun s => set_data (set_blocks s (push_into_top_block (scope_effect_blocks s) eff))
                            (push_result_effect (data s) eff)).

(** [Scanner::push_callsite]; panics ([expect]) outside a function. *)
Definition push_callsite (callee : CanonicalPath) (ffi : option CanonicalPath)
    (is_unsafe : bool) : ScanM R unit :=
  let* s := get in
  match scope_fns s with
  | [] => panic
  | fn_dec :: _ =>
      let caller := fn_name fn_dec in
      let d := data s in
      let d := match node_idxs d !! caller, node_idxs d !! callee with
               | Some a, Some b => add_edge d a b
               | _, _ => d
               end in
      let eff := mkEffectInstance caller callee
                   (SinkCall callee ffi is_unsafe (sink_match (sinks s) callee)) in
      modify (fun s => set_data (set_blocks s (push_into_top_block (scope_effect_blocks s) eff))
                                (push_result_effect d eff))
  end.

(** [Scanner::scan_path] *)
Definition scan_path (x : Path) : ScanM R unit :=
  let* s := get in
  let r := resolver s in
  let ty := resolve_path_type r x in
  (if is_function ty || is_fn_ptr ty
   then push_effect (resolve_path r x) FnPtrCreation else sret tt) ;;
  (if is_mut_static ty
   then let cp := resolve_path r x in push_effect cp (StaticMut cp) else sret tt) ;;
  (match resolve_ffi r x with
   | Some _ => let cp := resolve_path r x in push_effect cp (StaticExt cp)
   | None => sret tt
   end).

(** [Scanner::scan_closure] *)
Definition scan_closure (sp : Span) : ScanM R unit :=
  match create_closure_ident sp with
  | None => sret tt
  | Some cl_name => push_effect cl_name ClosureCreation
  end.

(** [Scanner::scan_deref] *)
Definition scan_deref (x : Expr) : ScanM R unit :=
  let* s := get in
  let r := resolver s in
  for_each (fun i =>
    let ty := resolve_field_type r i in
    let p := resolve_field r i in
    if is_raw_ptr ty then push_effect p (RawPointer p) else sret tt)
    (token_idents x).

(** [Scanner::scan_field_access] *)
Definition scan_field_access (m : Member) : ScanM R unit :=
  match m with
  | Named i =>
      let* s := get in
      let ty := resolve_field_type (resolver s) i in
      if negb (is_union_field ty) || scope_assign_lhs s then sret tt
      else let cp := resolve_field (resolver s) i in push_effect cp (UnionField cp)
  | Unnamed _ => sret tt
  end.

(** [Scanner::scan_expr_call_field] *)
Definition scan_expr_call_field (m : Member) : ScanM R unit :=
  let* s := get in
  let r := resolver s in
  match m with
  | Named i =>
      let is_unsafe := resolve_unsafe_ident r i && bool_decide (0 < scope_unsafe s) in
      push_callsite (resolve_field r i) None is_unsafe
  | Unnamed idx =>
      push_callsite (resolve_field_index r idx) None (bool_decide (0 < scope_unsafe s))
  end.

(** [Scanner::scan_expr_call_method] *)
Definition scan_expr_call_method (i : Ident) : ScanM R unit :=
  let* s := get in
  let r := resolver s in
  let is_unsafe := resolve_unsafe_ident r i && bool_decide (0 < scope_unsafe s) in
  push_callsite (resolve_method r i) None is_unsafe.

(** [Scanner::scan_expr_call] *)
Fixpoint scan_expr_call (f : Expr) : ScanM R unit :=
  match f with
  | PathExpr p =>
      let* s := get in
      let r := resolver s in
      let callee := resolve_path r p in
      let ffi := resolve_ffi r p in
      let is_unsafe := resolve_unsafe_path r p && bool_decide (0 < scope_unsafe s) in
      push_callsite callee ffi is_unsafe
  | Paren x => scan_expr_call x
  | Field _ m => scan_expr_call_field m
  | Macro _ => track TMacros
  | _ => track TFnCalls
  end.

(** [Scanner::scan_unsafe_block], given the scan of the block's
    statements. *)
Definition scan_unsafe_block (scan_stmts : ScanM R unit) : ScanM R unit :=
  modify_unsafe S ;;
  let* s := get in
  match scope_fns s with
  | [] => panic
  | fn_dec :: _ =>
      modify (fun s => set_blocks s (mkEffectBlock UnsafeExpr fn_dec [] :: scope_effect_blocks s)) ;;
      scan_stmts ;;
      pop_effect_block ;;
      modify_unsafe pred
  end.

(** [Scanner::scan_fn], given the scan of the body's statements. *)
Definition scan_fn (f_sig : Signature) (vis : Visibility) (scan_body : ScanM R unit)
  : ScanM R unit :=
  let* s := get in
  let f_ident := sig_ident f_sig in
  let f_name := resolve_def (resolver s) f_ident in
  let fn_dec := mkFnDec f_name vis (sig_span f_sig) in
  modify (fun s => set_fns s (fn_dec :: scope_fns s)) ;;
  modify_resolver (fun r => push_fn r f_ident) ;;
  modify (fun s => set_data s (add_fn_dec (data s) fn_dec)) ;;
  let effect_block :=
    if sig_unsafety f_sig then mkEffectBlock UnsafeFn fn_dec []
    else mkEffectBlock NormalFn fn_dec [] in
  (if sig_unsafety f_sig then modify_unsafe S else sret tt) ;;
  modify (fun s => set_blocks s (effect_block :: scope_effect_blocks s)) ;;
  scan_body ;;
  modify (fun s => set_fns s (tail (scope_fns s))) ;;
  modify_resolver pop_fn ;;
  pop_effect_block ;;
  (if sig_unsafety f_sig then modify_unsafe pred else sret tt).

(** [Scanner::scan_foreign_item] *)
Definition scan_foreign_item (i : ForeignItem) : ScanM R unit :=
  match i with
  | ForeignFn f => modify_resolver (fun r => scan_foreign_fn r f)
  | ForeignMacro => track TMacros
  | ForeignOther => track TOther
  end.

(** [Scanner::scan_impl_trait_path] *)
Definition scan_impl_trait_path (unsafety : bool) (tr : Path)
    (self_ty : option Ident) : ScanM R unit :=
  if unsafety then
    let* s := get in
    let r := resolver s in
    let tr_name := resolve_path r tr in
    let tr_type := match self_ty with Some i => Some (resolve_ident r i) | None => None end in
    modify (fun s => set_data s (push_unsafe_impl (data s) (tr_name, tr_type)))
  else sret tt.

(** [Scanner::scan_expr], [scan_fn_statement] (with [scan_fn_local]),
    [scan_item] (with [scan_mod], [scan_impl], [scan_fn_decl],
    [scan_trait], [scan_foreign_mod]) and the impl-item loop of
    [scan_impl] (with [scan_method]). *)
Fixpoint scan_expr (e : Expr) : ScanM R unit :=
  match e with
  | Array elems => for_each scan_expr elems
  | Assign lhs rhs =>
      modify (fun s => set_assign_lhs s true) ;;
      scan_expr lhs ;;
      modify (fun s => set_assign_lhs s false) ;;
      scan_expr rhs
  | Async stmts => for_each scan_fn_statement stmts
  | Await base => scan_expr base
  | Binary lhs rhs => scan_expr lhs ;; scan_expr rhs
  | Block stmts => for_each scan_fn_statement stmts
  | Break o => for_opt scan_expr o
  | Call func args => for_each scan_expr args ;; scan_expr_call func
  | Cast x => scan_expr x
  | Closure sp => scan_closure sp
  | Continue => sret tt
  | Field base m => scan_expr base ;; scan_field_access m
  | ForLoop x body => scan_expr x ;; for_each scan_fn_statement body
  | Group x => scan_expr x
  | If cond then_branch else_branch =>
      scan_expr cond ;; for_each scan_fn_statement then_branch ;;
      for_opt scan_expr else_branch
  | Index x index => scan_expr x ;; scan_expr index
  | Let x => scan_expr x
  | Lit => sret tt
  | Loop body => for_each scan_fn_statement body
  | Macro _ => track TMacros
  | Match x arms =>
      scan_expr x ;;
      for_each (fun a => for_opt scan_expr (fst a) ;; scan_expr (snd a)) arms
  | MethodCall receiver method args =>
      scan_expr receiver ;; for_each scan_expr args ;; scan_expr_call_method method
  | Paren x => scan_expr x
  | PathExpr p => scan_path p
  | Range start end_ => for_opt scan_expr start ;; for_opt scan_expr end_
  | Reference x => scan_expr x
  | Repeat x len => scan_expr x ;; scan_expr len
  | Return o => for_opt scan_expr o
  | Struct fields rest => for_each scan_expr fields ;; for_opt scan_expr rest
  | Try x => scan_expr x
  | TryBlock stmts => for_each scan_fn_statement stmts
  | Tuple elems => for_each scan_expr elems
  | Unary op x =>
      (match op with Deref => scan_deref x | _ => sret tt end) ;; scan_expr x
  | Unsafe stmts => scan_unsafe_block (for_each scan_fn_statement stmts)
  | Verbatim => sret tt
  | While cond body => scan_expr cond ;; for_each scan_fn_statement body
  | Yield o => for_opt scan_expr o
  | Other => sret tt
  end
with scan_fn_statement (st : Stmt) : ScanM R unit :=
  match st with
  | Local init =>
      match init with
      | Some (x, diverge) => scan_expr x ;; for_opt scan_expr diverge
      | None => sret tt
      end
  | ExprStmt x => scan_expr x
  | ItemStmt i => scan_item i
  | MacroStmt => track TMacros
  end
with scan_item (i : Item) : ScanM R unit :=
  match i with
  | ItemMod attrs ident content =>
      if skip_attrs attrs then track TConditional else
      match content with
      | Some items =>
          modify_resolver (fun r => push_mod r ident) ;;
          for_each scan_item items ;;
          modify_resolver pop_mod
      | None => sret tt
      end
  | ItemUse u => modify_resolver (fun r => scan_use r u)
  | ItemImpl attrs unsafety impl_id trait_ self_ty items =>
      if skip_attrs attrs then track TConditional else
      modify_resolver (fun r => push_impl r impl_id) ;;
      for_opt (fun tr => scan_impl_trait_path unsafety tr self_ty) trait_ ;;
      for_each scan_impl_item items ;;
      modify_resolver pop_impl
  | ItemFn attrs vis sig block =>
      if skip_attrs attrs then track TConditional else
      scan_fn sig vis (for_each scan_fn_statement block)
  | ItemTrait attrs unsafety ident =>
      if skip_attrs attrs then track TConditional else
      let* s := get in
      let t_name := resolve_def (resolver s) ident in
      if unsafety
      then modify (fun s => set_data s (push_unsafe_trait (data s) t_name))
      else sret tt
  | ItemForeignMod attrs items =>
      if skip_attrs attrs then track TConditional else
      modify_unsafe S ;; for_each scan_foreign_item items ;; modify_unsafe pred
  | ItemMacro => track TMacros
  | ItemOther => sret tt
  end
with scan_impl_item (ii : ImplItem) : ScanM R unit :=
  match ii with
  | ImplFn attrs vis sig block =>
      if skip_attrs attrs then track TConditional else
      scan_fn sig vis (for_each scan_fn_statement block)
  | ImplMacro => track TMacros
  | ImplVerbatim => sret tt
  | ImplOther => track TOther
  end.

(** [Scanner::scan_file] (the file's items). *)
Definition scan_file (items : list Item) : ScanM R unit := for_each scan_item items.

(** [Scanner::new]: a fresh scanner over [data] with the given sinks. *)
Definition Scanner_new (r : R) (d : ScanResults) (sinks : list CanonicalPath)
  : Scanner R :=
  mkScanner r [] 0 false [] d sinks.

End Scan.

(** Whether an effect instance is a [UnionField] effect. *)
Definition is_union_effect (e : EffectInstance) : bool :=
  match eff_type e with UnionField _ => true | _ => false end.

(** The number of [UnionField] effects recorded so far. *)
Definition union_count {R} (s : Scanner R) : nat :=
  length (List.filter is_union_effect (effects (data s))).

End ScannerModel.

(** The invariant stated for [node_idxs]: it is a bijection between its
    keys and the nodes of the call graph, each key naming a node labelled
    with that key. *)
Module CallGraphInv.
Import ScannerModel.

Definition node_idxs_bijection (d : ScanResults) : Prop :=
  (forall (k : CanonicalPath) (i : nat),
     node_idxs d !! k = Some i -> call_graph_nodes d !! i = Some k) /\
  (forall (i : nat) (label : CanonicalPath),
     call_graph_nodes d !! i = Some label ->
     exists k, node_idxs d !! k = Some i /\
       forall k', node_idxs d !! k' = Some i -> k' = k).

End CallGraphInv.

(** A resolver used to run the scanner on concrete files: it resolves a
    definition, field or single-segment path to the current module path
    followed by the name, and classifies the fields of [unions] as union
    fields; nothing is a function, static, foreign or unsafe item. *)
Module ModResolver.
Import Syn ScannerModel.

Record ModRes := mkModRes { mod_path : list string; unions : list Ident }.

Definition in_mod (r : ModRes) (i : Ident) : CanonicalPath := (mod_path r ++ [i])%list.

#[global] Instance ModRes_resolve : Resolve ModRes := {
  resolve_def := in_mod;
  resolve_ident := in_mod;
  resolve_path := fun r p => match p with [i] => in_mod r i | _ => p end;
  resolve_path_type := fun _ _ => mkPathType false false false;
  resolve_ffi := fun _ _ => None;
  resolve_field := in_mod;
  resolve_field_index := fun r _ => mod_path r;
  resolve_field_type := fun r i =>
    mkFieldType false (bool_decide (i ∈ unions r));
  resolve_method := in_mod;
  resolve_unsafe_path := fun _ _ => false;
  resolve_unsafe_ident := fun _ _ => false;
  scan_use := fun r _ => r;
  scan_foreign_fn := fun r _ => r;
  push_mod := fun r i => mkModRes (mod_path r ++ [i])%list (unions r);
  pop_mod := fun r => mkModRes (removelast (mod_path r)) (unions r);
  push_fn := fun r _ => r;
  pop_fn := fun r => r;
  push_impl := fun r _ => r;
  pop_impl := fun r => r
}.

#[global] Instance ModRes_helpers : SynHelpers := {
  create_closure_ident := fun _ => Some ["closure"];
  token_idents := fun _ => []
}.

(** A scanner at the root of a crate whose only union field is [field]. *)
Definition fresh : Scanner ModRes :=
  Scanner_new (mkModRes [] ["field"]) ScanResults_new [].

(** The results of scanning [items] from [fresh], if no panic. *)
Definition run (items : list Item) : option ScanResults :=
  match scan_file items fresh with
  | Some (_, s) => Some (data s)
  | None => None
  end.

(** [fn name() { body }], private, not [unsafe]. *)
Definition plain_fn (attrs : list Attribute) (name : Ident) (sp : Span)
    (body : list Stmt) : Item :=
  ItemFn attrs Inherited (mkSig false name sp) body.

End ModResolver.

(* ===================================================================== *)
(** ** The rest of scanner.rs: top-level checks, [LoCTracker], and the
       per-file and per-crate drivers *)
(* ===================================================================== *)

(** Measures on scan results used to state invariants of the scanner. *)
Module ScanMeasures.
Import Syn ScannerModel.

(** The call graph is well formed: every key of [node_idxs] maps to a
    node labelled with that key, and every edge joins two existing
    nodes. *)
Definition wf_graph (d : ScanResults) : Prop :=
  (forall (k : CanonicalPath) (i : nat),
     node_idxs d !! k = Some i -> call_graph_nodes d !! i = Some k) /\
  (forall a b : nat, (a, b) ∈ call_graph_edges d ->
     a < length (call_graph_nodes d) /\ b < length (call_graph_nodes d)).

(** An effect block opened for a function declaration ([NormalFn] or
    [UnsafeFn]), as opposed to one for an [unsafe] expression. *)
Definition is_fn_block (b : EffectBlock) : bool :=
  match block_type b with UnsafeExpr => false | UnsafeFn | NormalFn => true end.

Definition count_fn_blocks (bs : list EffectBlock) : nat :=
  length (List.filter is_fn_block bs).

(** [d'] extends [d]: the recorded lists are only appended to, the sets
    and maps only gain keys, the skip counters only grow. *)
Record grows (d d' : ScanResults) : Prop := mkGrows {
  g_effects : effects d `prefix_of` effects d';
  g_blocks : effect_blocks d `prefix_of` effect_blocks d';
  g_traits : unsafe_traits d `prefix_of` unsafe_traits d';
  g_impls : unsafe_impls d `prefix_of` unsafe_impls d';
  g_nodes : call_graph_nodes d `prefix_of` call_graph_nodes d';
  g_edges : call_graph_edges d `prefix_of` call_graph_edges d';
  g_pub : pub_fns d ⊆ pub_fns d';
  g_locs : dom (fn_locs d) ⊆ dom (fn_locs d');
  g_idxs : dom (node_idxs d) ⊆ dom (node_idxs d');
  g_macros : skipped_macros d <= skipped_macros d';
  g_cond : skipped_conditional_code d <= skipped_conditional_code d';
  g_calls : skipped_fn_calls d <= skipped_fn_calls d';
  g_other : skipped_other d <= skipped_other d'
}.

Definition opt_all {A} (p : A -> bool) (o : option A) : bool :=
  match o with Some x => p x | None => true end.

(** The syntax contains no assignment expression, at any depth (also in
    the bodies of nested items). *)
Fixpoint assign_free_expr (e : Expr) : bool :=
  match e with
  | Array elems => forallb assign_free_expr elems
  | Assign _ _ => false
  | Async stmts => forallb assign_free_stmt stmts
  | Await base => assign_free_expr base
  | Binary lhs rhs => assign_free_expr lhs && assign_free_expr rhs
  | Block stmts => forallb assign_free_stmt stmts
  | Break o => opt_all assign_free_expr o
  | Call func args => assign_free_expr func && forallb assign_free_expr args
  | Cast x => assign_free_expr x
  | Closure _ => true
  | Continue => true
  | Field base _ => assign_free_expr base
  | ForLoop x body => assign_free_expr x && forallb assign_free_stmt body
  | Group x => assign_free_expr x
  | If cond then_branch else_branch =>
      assign_free_expr cond && forallb assign_free_stmt then_branch &&
      opt_all assign_free_expr else_branch
  | Index x index => assign_free_expr x && assign_free_expr index
  | Let x => assign_free_expr x
  | Lit => true
  | Loop body => forallb assign_free_stmt body
  | Macro _ => true
  | Match x arms =>
      assign_free_expr x &&
      forallb (fun a => opt_all assign_free_expr (fst a) && assign_free_expr (snd a)) arms
  | MethodCall receiver _ args =>
      assign_free_expr receiver && forallb assign_free_expr args
  | Paren x => assign_free_expr x
  | PathExpr _ => true
  | Range start end_ => opt_all assign_free_expr start && opt_all assign_free_expr end_
  | Reference x => assign_free_expr x
  | Repeat x len => assign_free_expr x && assign_free_expr len
  | Return o => opt_all assign_free_expr o
  | Struct fields rest => forallb assign_free_expr fields && opt_all assign_free_expr rest
  | Try x => assign_free_expr x
  | TryBlock stmts => forallb assign_free_stmt stmts
  | Tuple elems => forallb assign_free_expr elems
  | Unary _ x => assign_free_expr x
  | Unsafe stmts => forallb assign_free_stmt stmts
  | Verbatim => true
  | While cond body => assign_free_expr cond && forallb assign_free_stmt body
  | Yield o => opt_all assign_free_expr o
  | Other => true
  end
with assign_free_stmt (st : Stmt) : bool :=
  match st with
  | Local init =>
      match init with
      | Some (x, diverge) => assign_free_expr x && opt_all assign_free_expr diverge
      | None => true
      end
  | ExprStmt x => assign_free_expr x
  | ItemStmt i => assign_free_item i
  | MacroStmt => true
  end
with assign_free_item (i : Item) : bool :=
  match i with
  | ItemMod _ _ content => opt_all (forallb assign_free_item) content
  | ItemImpl _ _ _ _ _ items => forallb assign_free_impl_item items
  | ItemFn _ _ _ block => forallb assign_free_stmt block
  | _ => true
  end
with assign_free_impl_item (ii : ImplItem) : bool :=
  match ii with
  | ImplFn _ _ _ block => forallb assign_free_stmt block
  | _ => true
  end.

End ScanMeasures.

Module ScanDriver.
Import Syn ScannerModel.

(** [Scanner::assert_top_level_invariant]: whether its two assertions on
    the scanner pass ([scope_effect_blocks] empty, [scope_unsafe] zero);
    the resolver's own check is in resolve.rs, which is not under src/. *)
Definition assert_top_level_invariant {R} (s : Scanner R) : bool :=
  match scope_effect_blocks s with [] => true | _ :: _ => false end
  && Nat.eqb (scope_unsafe s) 0.

(** [Scanner::add_sinks]: [self.sinks.extend(new_sinks)]. *)
Definition add_sinks {R} (s : Scanner R) (new_sinks : list CanonicalPath)
  : Scanner R :=
  mkScanner (resolver s) (scope_effect_blocks s) (scope_unsafe s)
    (scope_assign_lhs s) (scope_fns s) (data s) (sinks s ++ new_sinks)%list.

(** [util::CrateData] *)
Record CrateData := mkCrateData { name : string; version : string }.

Section Driver.
Context {Resolver FileResolver : Type} `{Resolve FileResolver} `{SynHelpers}.

(** The operations of the file system and of the other modules that the
    drivers call: [File::open] followed by [read_to_string],
    [syn::parse_file], [FileResolver::new], [Sink::default_sinks],
    [Path::is_dir], [Path::is_file], [Path::try_exists],
    [util::load_cargo_toml], [Resolver::new],
    [util::fs::walk_files_with_extension] and [Path::join]. *)
Variables (read_file : string -> result string string)
          (parse_file : string -> result (list Item) string)
          (file_resolver_new : string -> Resolver -> string -> result FileResolver string)
          (default_sinks : list CanonicalPath)
          (is_dir is_file : string -> bool)
          (try_exists : string -> result bool string)
          (load_cargo_toml : string -> result CrateData string)
          (resolver_new : string -> result Resolver string)
          (walk_files_with_extension : string -> string -> list string)
          (join : string -> string -> string).

(** [scanner::scan_file]: the outcome ([Ok] / [Err] from a [?]) and the
    scan results afterwards; [None] is a panic of the scan. *)
Definition scan_file_top (crate_name filepath : string) (resolver : Resolver)
    (scan_results : ScanResults) (sinks : list CanonicalPath)
  : option (result unit string * ScanResults) :=
  match read_file filepath with
  | Err e => Some (Err e, scan_results)
  | Ok src =>
      match parse_file src with
      | Err e => Some (Err e, scan_results)
      | Ok syntax_tree =>
          match file_resolver_new crate_name resolver filepath with
          | Err e => Some (Err e, scan_results)
          | Ok file_resolver =>
              let scanner := Scanner_new file_resolver scan_results default_sinks in
              let scanner := add_sinks scanner sinks in
              match scan_file syntax_tree scanner with
              | Some (_, s) => Some (Ok tt, data s)
              | None => None
              end
          end
      end
  end.

(** [scanner::try_scan_file]: the error is only logged. *)
Definition try_scan_file (crate_name filepath : string) (resolver : Resolver)
    (scan_results : ScanResults) (sinks : list CanonicalPath)
  : option ScanResults :=
  match scan_file_top crate_name filepath resolver scan_results sinks with
  | Some (_, d) => Some d
  | None => None
  end.

(** The loop of [scan_crate_with_sinks] calling [try_scan_file] on each
    file in turn, with a clone of [sinks]. *)
Fixpoint scan_files (crate_name : string) (resolver : Resolver)
    (files : list string) (scan_results : ScanResults)
    (sinks : list CanonicalPath) : option ScanResults :=
  match files with
  | [] => Some scan_results
  | entry :: files' =>
      match try_scan_file crate_name entry resolver scan_results sinks with
      | Some d => scan_files crate_name resolver files' d sinks
      | None => None
      end
  end.

(** [scanner::scan_crate_with_sinks]; [None] is a panic. *)
Definition scan_crate_with_sinks (crate_path : string) (sinks : list CanonicalPath)
  : option (result ScanResults string) :=
  if negb (is_dir crate_path) then
    Some (Err ("Path is not a crate; not a directory: " ++ dq ++ crate_path ++ dq))
  else
  let cargo_toml_path := join crate_path "Cargo.toml" in
  match try_exists cargo_toml_path with
  | Err e => Some (Err e)
  | Ok exists_ =>
  if negb exists_ || negb (is_file cargo_toml_path) then
    Some (Err ("Path is not a crate; missing Cargo.toml: " ++ dq ++ crate_path ++ dq))
  else
  match load_cargo_toml crate_path with
  | Err e => Some (Err e)
  | Ok cargo =>
  let crate_name := name cargo in
  match resolver_new crate_path with
  | Err e => Some (Err e)
  | Ok resolver =>
  let scan_results := ScanResults_new in
  let src_dir := join crate_path "src" in
  let files :=
    if is_dir src_dir then walk_files_with_extension src_dir "rs"
    else let lib_file := join crate_path "lib.rs" in
         if is_file lib_file then [lib_file] else [] in
  match scan_files crate_name resolver files scan_results sinks with
  | Some d => Some (Ok d)
  | None => None
  end
  end
  end
  end.

(** [scanner::scan_crate] *)
Definition scan_crate (crate_path : string) : option (result ScanResults string) :=
  scan_crate_with_sinks crate_path [].

End Driver.
End ScanDriver.

(** [LoCTracker] of scanner.rs.  A span is given by its start and end
    line. *)
Module LoC.

Record LoCTracker := mkLoCTracker {
  instances : nat;
  lines : nat;
  zero_size_lines : nat
}.

(** [LoCTracker::new] ([Default]). *)
Definition LoCTracker_new : LoCTracker := mkLoCTracker 0 0 0.

(** [LoCTracker::add] on a span from line [start] to line [end_].  The
    [usize] subtraction [end - start] is [nat]'s; the two agree on spans,
    whose end line is never before their start line. *)
Definition LoCTracker_add (t : LoCTracker) (start end_ : nat) : LoCTracker :=
  let t := mkLoCTracker (instances t + 1) (lines t) (zero_size_lines t) in
  if Nat.eqb start end_
  then mkLoCTracker (instances t) (lines t) (zero_size_lines t + 1)
  else mkLoCTracker (instances t) (lines t + (end_ - start)) (zero_size_lines t).

(** [LoCTracker::is_empty] *)
Definition is_empty (t : LoCTracker) : bool := Nat.eqb (instances t) 0.

(** [LoCTracker::as_loc] *)
Definition as_loc (t : LoCTracker) : nat := lines t + zero_size_lines t.

(** Adding the spans of a list one after the other. *)
Definition add_spans (t : LoCTracker) (spans : list (nat * nat)) : LoCTracker :=
  fold_left (fun t sp => LoCTracker_add t (fst sp) (snd sp)) spans t.

End LoC.

(* ===================================================================== *)
(** ** Properties of the policy engine *)
(* ===================================================================== *)
Module PolicyProofs.
Import PolicyModel.

(** The assertions of the Rust tests [test_policy_lookup_*] hold on the
    embedding. *)
Example test_policy_lookup_trivial :
  edge_in ex_policy "foo" "bar" = Some true /\
  edge_in ex_policy "foo" "std::effect" = Some false.
Proof. split; vm_compute; reflexivity. Qed.

Example test_policy_lookup_allow :
  let p := Policy_allow_simple ex_policy "foo" "std::effect" in
  edge_in p "foo" "std::effect" = Some true /\
  edge_in p "foo" "libc::effect" = Some false /\
  edge_in p "foo" "std::non_effect" = Some true /\
  edge_in p "bar" "std::effect" = Some false /\
  edge_in p "bar" "foo" = Some true.
Proof. vm_compute. repeat split. Qed.

Example test_policy_lookup_require :
  let p := Policy_require_simple ex_policy "foo" "std::effect" in
  edge_in p "foo" "std::effect" = Some true /\
  edge_in p "foo" "libc::effect" = Some false /\
  edge_in p "bar" "std::effect" = Some false /\
  edge_in p "bar" "foo" = Some false /\
  edge_in p "foo" "bar" = Some true.
Proof. vm_compute. repeat split. Qed.

Example test_policy_lookup_2 :
  let p := Policy_allow_simple (Policy_allow_simple
             (Policy_require_simple (Policy_require_simple
               (Policy_require_simple (Policy_allow_simple ex_policy
                  "foo::bar" "std::effect")
                "foo::bar" "libc::effect")
               "foo::f1" "libc::effect")
             "foo::f2" "libc::effect")
             "foo::g1" "libc::effect")
           "foo::g2" "libc::effect" in
  edge_in p "foo::bar" "libc::effect" = Some true /\
  edge_in p "foo::bar" "std::effect" = Some true /\
  edge_in p "foo::f1" "foo::bar" = Some true /\
  edge_in p "foo::f2" "foo::f1" = Some true /\
  edge_in p "foo::g1" "foo::f1" = Some true /\
  edge_in p "foo::g2" "foo::f2" = Some true /\
  edge_in p "foo::g2" "foo::f1" = Some true /\
  edge_in p "foo::g3" "foo::g2" = Some true /\
  edge_in p "foo::g3" "foo::f1" = Some false /\
  edge_in p "foo::g3" "foo::f2" = Some false.
Proof. vm_compute. repeat split. Qed.

Example test_policy_lookup_cycle :
  let p := Policy_require_simple (Policy_require_simple ex_policy
             "foo" "libc::effect") "bar" "libc::effect" in
  edge_in p "foo" "bar" = Some true /\ edge_in p "bar" "foo" = Some true.
Proof. vm_compute. repeat split. Qed.

(** *** Lemmas on the index *)

Lemma set_of_entry_insert (m : gmap string (gset string)) (k v i : string) :
  set_of (entry_insert m k v) i =
  if decide (k = i) then set_of m i ∪ {[v]} else set_of m i.
Proof.
  unfold set_of, entry_insert. rewrite lookup_insert.
  case_decide; subst; reflexivity.
Qed.

Lemma entry_insert_comm (m : gmap string (gset string)) (k1 v1 k2 v2 : string) :
  entry_insert (entry_insert m k1 v1) k2 v2 =
  entry_insert (entry_insert m k2 v2) k1 v1.
Proof.
  apply map_eq. intros i. unfold entry_insert.
  rewrite !lookup_insert.
  repeat case_decide; subst; simpl; try done; f_equal; set_solver.
Qed.

Lemma add_statements_app (l : PolicyLookup) (ss1 ss2 : list Statement) :
  add_statements l (ss1 ++ ss2) =
  match add_statements l ss1 with
  | Some l' => add_statements l' ss2
  | None => None
  end.
Proof.
  revert l. induction ss1 as [|s ss1 IH]; intros l; simpl; [done|].
  destruct (add_statement l s); [apply IH|done].
Qed.

Lemma from_policy_add_statement (p : Policy) (s : Statement) :
  from_policy (Policy_add_statement p s) =
  match from_policy p with
  | Some l => add_statement l s
  | None => None
  end.
Proof.
  unfold from_policy, Policy_add_statement; simpl.
  rewrite add_statements_app.
  destruct (add_statements _ _); simpl; [|done].
  destruct (add_statement _ s); done.
Qed.

(** Both sets of a caller only grow along [add_statement]. *)
Lemma add_statement_mono (l l' : PolicyLookup) (s : Statement) (k : string) :
  add_statement l s = Some l' ->
  set_of (allow_sets l) k ⊆ set_of (allow_sets l') k /\
  set_of (require_sets l) k ⊆ set_of (require_sets l') k.
Proof.
  destruct s as [r e|r e|r]; simpl; intros H; inversion H; subst; simpl;
    rewrite ?set_of_entry_insert; split; repeat case_decide; set_solver.
Qed.

Lemma add_statements_mono (l l' : PolicyLookup) (ss : list Statement) (k : string) :
  add_statements l ss = Some l' ->
  set_of (allow_sets l) k ⊆ set_of (allow_sets l') k /\
  set_of (require_sets l) k ⊆ set_of (require_sets l') k.
Proof.
  revert l. induction ss as [|s ss IH]; intros l H; simpl in H.
  - inversion H; subst. set_solver.
  - destruct (add_statement l s) as [l1|] eqn:E; [|done].
    destruct (add_statement_mono _ _ _ k E).
    destruct (IH _ H). set_solver.
Qed.

Lemma add_statement_comm (l : PolicyLookup) (s1 s2 : Statement) :
  match add_statement l s1 with
  | Some l1 => add_statement l1 s2 | None => None end =
  match add_statement l s2 with
  | Some l2 => add_statement l2 s1 | None => None end.
Proof.
  destruct s1 as [r1 e1|r1 e1|r1], s2 as [r2 e2|r2 e2|r2]; simpl; try done;
    f_equal; f_equal; apply entry_insert_comm.
Qed.

(** *** The edge checker *)

Lemma allow_list_contains_ok (l : PolicyLookup) (caller req : string) :
  is_err (allow_list_contains l caller req) = false <->
  req ∈ set_of (allow_sets l) caller.
Proof.
  unfold allow_list_contains, set_of.
  destruct (allow_sets l !! caller) as [allow|]; simpl.
  - case_bool_decide; simpl; split; (done || set_solver).
  - split; [done|set_solver].
Qed.

Lemma check_edge_bool_loop_spec (l : PolicyLookup) (caller : string)
    (reqs : list string) :
  check_edge_bool_loop l caller reqs = true <->
  Forall (fun req => req ∈ set_of (allow_sets l) caller) reqs.
Proof.
  induction reqs as [|req reqs IH]; simpl.
  - split; constructor.
  - rewrite Forall_cons, <- allow_list_contains_ok, <- IH.
    destruct (is_err _); simpl; split; intuition congruence.
Qed.

Lemma check_edge_loop_app (l : PolicyLookup) (caller : string)
    (reqs el : list string) :
  check_edge_loop l caller reqs el = (el ++ edge_errors l caller reqs)%list.
Proof.
  revert el. induction reqs as [|req reqs IH]; intros el; simpl.
  - by rewrite app_nil_r.
  - rewrite IH. destruct (allow_list_contains l caller req); simpl;
      [done | by rewrite <- app_assoc].
Qed.

Lemma edge_errors_nil (l : PolicyLookup) (caller : string) (reqs : list string) :
  edge_errors l caller reqs = [] <-> check_edge_bool_loop l caller reqs = true.
Proof.
  induction reqs as [|req reqs IH]; simpl; [done|].
  destruct (allow_list_contains l caller req); simpl; [done|].
  split; discriminate.
Qed.

Lemma check_edge_bool_subset (l : PolicyLookup) (caller callee : string) :
  check_edge_bool l caller callee = true <->
  set_of (require_sets l) callee ⊆ set_of (allow_sets l) caller.
Proof.
  unfold check_edge_bool, iter_requirements, set_of.
  rewrite check_edge_bool_loop_spec.
  destruct (require_sets l !! callee) as [req|]; simpl.
  - rewrite Forall_forall.
    split.
    + intros H x Hx. apply H. by apply elem_of_elements.
    + intros H x Hx. apply H. by apply elem_of_elements in Hx.
  - split; [set_solver|constructor].
Qed.

(** *** Claims *)

(** C1: [check_edge_bool caller callee] is true exactly when the callee's
    require set (empty when absent) is included in the caller's allow set
    (empty when absent); in particular a callee with no require entry
    passes for every caller. *)
Theorem check_edge_bool_iff_subset (l : PolicyLookup) :
  (forall caller callee : string,
     check_edge_bool l caller callee = true <->
     set_of (require_sets l) callee ⊆ set_of (allow_sets l) caller) /\
  (forall caller callee : string,
     require_sets l !! callee = None -> check_edge_bool l caller callee = true).
Proof.
  split; [exact (check_edge_bool_subset l)|].
  intros caller callee Hnone. apply check_edge_bool_subset.
  unfold set_of. rewrite Hnone. set_solver.
Qed.

(** Witness of C1 on the lookup of [test_policy_lookup_allow]: [foo] has
    no require entry, so the edge [bar -> foo] passes. *)
Lemma check_edge_bool_iff_subset_witness :
  exists l, ex_lookup (Policy_allow_simple ex_policy "foo" "std::effect") = Some l /\
    require_sets l !! "foo" = None /\ check_edge_bool l "bar" "foo" = true.
Proof.
  eexists. split; [vm_compute; reflexivity|].
  split; [vm_compute; reflexivity|].
  apply (proj2 (check_edge_bool_iff_subset _)). vm_compute. reflexivity.
Defined.

(** C2: for every [Require{r, e}] of a policy, the lookup built by
    [from_policy] has [e.fn_path] in both the require set and the allow set
    of [r.fn_path]. *)
Theorem from_policy_require_propagation (p : Policy) (l : PolicyLookup)
    (r e : FnCall) :
  from_policy p = Some l ->
  In (Require r e) (statements p) ->
  fn_path e ∈ set_of (require_sets l) (fn_path r) /\
  fn_path e ∈ set_of (allow_sets l) (fn_path r).
Proof.
  unfold from_policy. generalize PolicyLookup_empty as l0.
  induction (statements p) as [|s ss IH]; intros l0 Hl Hin; [done|].
  simpl in Hl. destruct (add_statement l0 s) as [l1|] eqn:E; [|done].
  destruct Hin as [->|Hin]; [|by apply (IH l1)].
  simpl in E. inversion E; subst l1.
  destruct (add_statements_mono _ _ _ (fn_path r) Hl) as [Ha Hr].
  simpl in Ha, Hr. rewrite !set_of_entry_insert in Ha, Hr.
  rewrite decide_True in Ha, Hr by done. set_solver.
Qed.

Lemma from_policy_require_propagation_witness :
  let p := Policy_require_simple ex_policy "foo" "std::effect" in
  exists l, from_policy p = Some l /\
    "std::effect" ∈ set_of (require_sets l) "foo" /\
    "std::effect" ∈ set_of (allow_sets l) "foo".
Proof.
  simpl. eexists. split; [vm_compute; reflexivity|].
  apply (from_policy_require_propagation
           (Policy_require_simple ex_policy "foo" "std::effect") _
           (FnCall_new_all "foo") (FnCall_new_all "std::effect")).
  - vm_compute. reflexivity.
  - simpl. left. reflexivity.
Defined.

(** C3, as stated, fails: adding [require foo libc::effect] to the policy
    [require bar libc::effect] turns the edge [foo -> bar] from [false] to
    [true], because a [Require] also extends the region's allow set. *)
Lemma require_monotonicity_counterexample :
  let p := Policy_require_simple ex_policy "bar" "libc::effect" in
  let p' := Policy_add_statement p (Statement_require_simple "foo" "libc::effect") in
  exists l l', from_policy p = Some l /\ from_policy p' = Some l' /\
    check_edge_bool l "foo" "bar" = false /\ check_edge_bool l' "foo" "bar" = true.
Proof.
  simpl. do 2 eexists. split; [vm_compute; reflexivity|].
  split; [vm_compute; reflexivity|]. vm_compute. split; reflexivity.
Qed.

(** C3 (amended): appending [Allow{r, e}] to a policy never turns an edge
    from [true] to [false].  Appending [Require{r, e}] never turns an edge
    whose caller is not [r.fn_path] from [false] to [true], and never turns
    an edge whose caller is [r.fn_path] from [true] to [false]. *)
Theorem check_edge_bool_monotone (p : Policy) (l : PolicyLookup)
    (r e : FnCall) (caller callee : string) :
  from_policy p = Some l ->
  (exists la, from_policy (Policy_add_statement p (Allow r e)) = Some la /\
     (check_edge_bool l caller callee = true ->
      check_edge_bool la caller callee = true)) /\
  (exists lr, from_policy (Policy_add_statement p (Require r e)) = Some lr /\
     (caller <> fn_path r ->
      check_edge_bool lr caller callee = true ->
      check_edge_bool l caller callee = true) /\
     (caller = fn_path r ->
      check_edge_bool l caller callee = true ->
      check_edge_bool lr caller callee = true)).
Proof.
  intros Hl. rewrite !from_policy_add_statement, Hl. simpl.
  pose proof check_edge_bool_subset as H1.
  split; eexists; (split; [reflexivity|]); [|split]; intros *;
    rewrite ?H1; simpl; rewrite ?set_of_entry_insert;
    repeat case_decide; subst; try congruence; set_solver.
Qed.

Lemma check_edge_bool_monotone_witness :
  let p := Policy_require_simple ex_policy "bar" "libc::effect" in
  exists l, from_policy p = Some l /\
  ((exists la, from_policy (Policy_add_statement p
        (Allow (FnCall_new_all "foo") (FnCall_new_all "libc::effect"))) = Some la /\
     (check_edge_bool l "foo" "bar" = true -> check_edge_bool la "foo" "bar" = true)) /\
   (exists lr, from_policy (Policy_add_statement p
        (Require (FnCall_new_all "foo") (FnCall_new_all "libc::effect"))) = Some lr /\
     ("foo" <> fn_path (FnCall_new_all "foo") ->
      check_edge_bool lr "foo" "bar" = true -> check_edge_bool l "foo" "bar" = true) /\
     ("foo" = fn_path (FnCall_new_all "foo") ->
      check_edge_bool l "foo" "bar" = true -> check_edge_bool lr "foo" "bar" = true))).
Proof.
  simpl. eexists. split; [vm_compute; reflexivity|].
  apply check_edge_bool_monotone. vm_compute. reflexivity.
Defined.

(** C4: [from_policy] gives the same result (the same pair of maps of
    sets, or the same panic) for every permutation of the statements. *)
Theorem from_policy_permutation (p p' : Policy) :
  Permutation (statements p) (statements p') ->
  from_policy p = from_policy p'.
Proof.
  unfold from_policy. generalize PolicyLookup_empty as l0.
  intros l0 Hperm. revert l0.
  induction Hperm as [|s ss ss' _ IH|s1 s2 ss|ss ss' ss'' _ IH1 _ IH2];
    intros l0; simpl.
  - reflexivity.
  - destruct (add_statement l0 s); [apply IH|reflexivity].
  - pose proof (add_statement_comm l0 s2 s1) as Hc.
    destruct (add_statement l0 s2) as [a|] eqn:Ea,
             (add_statement l0 s1) as [b|] eqn:Eb; simpl in Hc.
    + destruct (add_statement a s1) as [c|] eqn:Ec,
               (add_statement b s2) as [d|] eqn:Ed; try discriminate; [|done].
      injection Hc as ->. reflexivity.
    + destruct (add_statement a s1); done.
    + destruct (add_statement b s2); done.
    + reflexivity.
  - by rewrite IH1, IH2.
Qed.

Lemma from_policy_permutation_witness :
  let ss := [Statement_allow_simple "foo::bar" "std::effect";
             Statement_require_simple "foo::bar" "libc::effect";
             Statement_require_simple "foo::f1" "libc::effect"] in
  from_policy (mkPolicy "ex" "0.1" "0.1" ss) =
  from_policy (mkPolicy "ex" "0.1" "0.1" (rev ss)).
Proof.
  apply from_policy_permutation. simpl. apply Permutation_rev.
Defined.

(** C5: [check_edge_bool] is true exactly when [check_edge] appends no
    diagnostic to the error list it is given. *)
Theorem check_edge_bool_iff_no_diagnostic (l : PolicyLookup)
    (caller callee : string) (error_list : list string) :
  check_edge_bool l caller callee = true <->
  check_edge l caller callee error_list = error_list.
Proof.
  unfold check_edge, check_edge_bool. rewrite check_edge_loop_app.
  rewrite <- edge_errors_nil.
  split.
  - intros ->. apply app_nil_r.
  - intros H. apply (app_inv_head error_list). by rewrite app_nil_r.
Qed.

(** C7: a [Trust] statement makes [add_statement] panic
    ([unimplemented!]); [from_policy p] panics exactly when [p] holds a
    [Trust] statement, and returns a lookup otherwise. *)
Theorem from_policy_trust_panics (p : Policy) :
  (forall (l : PolicyLookup) (r : FnCall), add_statement l (Trust r) = None) /\
  (from_policy p = None <-> exists r, In (Trust r) (statements p)).
Proof.
  split; [done|].
  unfold from_policy. generalize PolicyLookup_empty as l0.
  induction (statements p) as [|s ss IH]; intros l0; simpl.
  - split; [done|]. intros [r []].
  - destruct s as [r e|r e|r]; simpl.
    + rewrite IH. split; intros [r' H]; exists r'; [by right|].
      destruct H as [H|H]; [discriminate|done].
    + rewrite IH. split; intros [r' H]; exists r'; [by right|].
      destruct H as [H|H]; [discriminate|done].
    + split; [|done]. intros _. exists r. by left.
Qed.

End PolicyProofs.

(* ===================================================================== *)
(** ** Properties of [Policy::from_file] *)
(* ===================================================================== *)
Module PolicyFileProofs.
Import PolicyModel PolicyFile.

Example extension_examples :
  extension "permissions-ex.toml" = Some "toml" /\
  extension "permissions-ex.json" = Some "json" /\
  extension ".toml" = None /\ extension "policy" = None /\
  extension "/tmp/pf/.toml" = None /\ extension "a.toml/" = Some "toml" /\
  extension "policies/p.toml/." = Some "toml" /\ extension "p.toml/.." = None /\
  extension "dir.toml/policy" = None.
Proof. vm_compute. repeat split. Qed.

(** C8, as stated, fails: [debug_assert_eq!] is compiled out of release
    builds, so there a readable file named [permissions-ex.json] whose
    text parses as a policy is loaded successfully. *)
Lemma from_file_extension_counterexample :
  let text := "crate_name = 'ex'" in
  let p := Policy_new "ex" "0.1" "0.1" in
  extension "permissions-ex.json" <> Some "toml" /\
  from_file false
    (fun f => if String.eqb f "permissions-ex.json" then Ok text else Err "not found")
    (fun s => if String.eqb s text then Ok p else Err "parse error")
    "permissions-ex.json" = Loaded p.
Proof. vm_compute. split; [discriminate|reflexivity]. Qed.

(** C8 (amended): with debug assertions enabled, [from_file] panics on
    every path whose extension ([Path::extension], taken from the path's
    final component) is not "toml", before reading it; with
    debug assertions disabled the extension is not checked, and
    [from_file] returns a policy exactly when the file reads and its text
    parses to that policy. *)
Theorem from_file_extension_check :
  (forall read_to_string toml_from_str (file : string),
     extension file <> Some "toml" ->
     from_file true read_to_string toml_from_str file = Panicked) /\
  (forall read_to_string toml_from_str (file : string) (p : Policy),
     from_file false read_to_string toml_from_str file = Loaded p <->
     exists text, read_to_string file = Ok text /\ toml_from_str text = Ok p).
Proof.
  split.
  - intros read parse file Hext. unfold from_file.
    rewrite bool_decide_false by exact Hext. reflexivity.
  - intros read parse file p. unfold from_file. simpl.
    destruct (read file) as [text|e] eqn:Er;
      [destruct (parse text) as [p'|e] eqn:Ep|]; split; intros H.
    + injection H as <-. eauto.
    + destruct H as (t & Ht & Hp). injection Ht as <-. congruence.
    + discriminate.
    + destruct H as (t & Ht & Hp). injection Ht as <-. congruence.
    + discriminate.
    + destruct H as (t & Ht & _). discriminate.
Qed.

Lemma from_file_extension_check_witness :
  extension "/tmp/pf/.toml" <> Some "toml" /\
  from_file true (fun _ => Ok "crate_name = 'ex'") (fun _ => Ok (Policy_new "ex" "0.1" "0.1"))
    "/tmp/pf/.toml" = Panicked.
Proof.
  split; [vm_compute; discriminate|].
  apply (proj1 from_file_extension_check). vm_compute. discriminate.
Defined.

End PolicyFileProofs.

(* ===================================================================== *)
(** ** Invariants of a scan: it never panics inside a function, keeps
       the frame of the scope and only grows the results *)
(* ===================================================================== *)

Module ScanInvariants.
Import Syn ScannerModel ScanMeasures.

(** *** Growth of the results *)

Lemma grows_refl (d : ScanResults) : grows d d.
Proof. constructor; done. Qed.

Lemma grows_trans (d1 d2 d3 : ScanResults) :
  grows d1 d2 -> grows d2 d3 -> grows d1 d3.
Proof.
  intros [] []; constructor; (etrans; eassumption) || lia.
Qed.

Ltac prefix_app := eexists; reflexivity.

(** *** The relation kept by every scanning step *)

Section Inv.
Context {R : Type} `{Resolve R} `{SynHelpers}.

(** The scanner's scopes are as they were (the stack of effect blocks
    keeps its shape, the blocks' contents may grow), and the assignment
    flag is never left set when it was clear. *)
Record frame (s s' : Scanner R) : Prop := mkFrame {
  fr_fns : scope_fns s' = scope_fns s;
  fr_unsafe : scope_unsafe s' = scope_unsafe s;
  fr_types : map block_type (scope_effect_blocks s') =
             map block_type (scope_effect_blocks s);
  fr_sinks : sinks s' = sinks s;
  fr_lhs : scope_assign_lhs s = false -> scope_assign_lhs s' = false
}.

(** The results grow, keep a well-formed call graph well formed, and add
    as many graph nodes as function effect blocks. *)
Record drel (d d' : ScanResults) : Prop := mkDrel {
  dr_grows : grows d d';
  dr_wf : wf_graph d -> wf_graph d';
  dr_count : length (call_graph_nodes d') + count_fn_blocks (effect_blocks d) =
             length (call_graph_nodes d) + count_fn_blocks (effect_blocks d')
}.

Definition Inv (s s' : Scanner R) : Prop := frame s s' /\ drel (data s) (data s').

Lemma frame_refl s : frame s s.
Proof. constructor; auto. Qed.

Lemma frame_trans s1 s2 s3 : frame s1 s2 -> frame s2 s3 -> frame s1 s3.
Proof. intros [] []; constructor; congruence || auto. Qed.

Lemma drel_refl d : drel d d.
Proof. constructor; auto using grows_refl. Qed.

Lemma drel_trans d1 d2 d3 : drel d1 d2 -> drel d2 d3 -> drel d1 d3.
Proof. intros [] []; constructor; eauto using grows_trans. lia. Qed.

Lemma Inv_refl s : Inv s s.
Proof. split; auto using frame_refl, drel_refl. Qed.

Lemma Inv_trans s1 s2 s3 : Inv s1 s2 -> Inv s2 s3 -> Inv s1 s3.
Proof. intros [] []; split; eauto using frame_trans, drel_trans. Qed.

(** A step that changes only the data of the scanner. *)
Lemma Inv_set_data s d : drel (data s) d -> Inv s (set_data s d).
Proof. intros Hd. split; [constructor; auto|exact Hd]. Qed.

(** A computation that never panics when run inside a function, and
    keeps [Inv]. *)
Definition Safe (m : ScanM R unit) : Prop :=
  forall s, scope_fns s <> [] -> exists s', m s = Some (tt, s') /\ Inv s s'.

(** A computation that never panics, and keeps [Inv]. *)
Definition SafeTop (m : ScanM R unit) : Prop :=
  forall s, exists s', m s = Some (tt, s') /\ Inv s s'.

Lemma safe_top m : SafeTop m -> Safe m.
Proof. intros Hm s _. apply Hm. Qed.

Lemma safe_ret : SafeTop (sret tt).
Proof. intros s. exists s. split; [done|apply Inv_refl]. Qed.

Lemma safe_bind (m k : ScanM R unit) : Safe m -> Safe k -> Safe (m ;; k).
Proof.
  intros Hm Hk s Hs. destruct (Hm s Hs) as (s1 & E1 & I1).
  destruct (Hk s1) as (s2 & E2 & I2).
  { rewrite (fr_fns _ _ (proj1 I1)). done. }
  exists s2. unfold sbind. rewrite E1. split; [done|]. eapply Inv_trans; eauto.
Qed.

Lemma safetop_bind (m k : ScanM R unit) : SafeTop m -> SafeTop k -> SafeTop (m ;; k).
Proof.
  intros Hm Hk s. destruct (Hm s) as (s1 & E1 & I1).
  destruct (Hk s1) as (s2 & E2 & I2).
  exists s2. unfold sbind. rewrite E1. split; [done|]. eapply Inv_trans; eauto.
Qed.

Lemma safe_get (k : Scanner R -> ScanM R unit) :
  (forall s0, Safe (k s0)) -> Safe (sbind get k).
Proof. intros Hk s Hs. exact (Hk s s Hs). Qed.

Lemma safetop_get (k : Scanner R -> ScanM R unit) :
  (forall s0, SafeTop (k s0)) -> SafeTop (sbind get k).
Proof. intros Hk s. exact (Hk s s). Qed.

Lemma safe_for_each {A} (f : A -> ScanM R unit) (xs : list A) :
  Forall (fun x => Safe (f x)) xs -> Safe (for_each f xs).
Proof.
  induction 1 as [|x xs Hx _ IH]; simpl.
  - apply safe_top, safe_ret.
  - by apply safe_bind.
Qed.

Lemma safetop_for_each {A} (f : A -> ScanM R unit) (xs : list A) :
  Forall (fun x => SafeTop (f x)) xs -> SafeTop (for_each f xs).
Proof.
  induction 1 as [|x xs Hx _ IH]; simpl.
  - apply safe_ret.
  - by apply safetop_bind.
Qed.

(** Used with the recursive proofs below: transparent, so that the
    recursive calls it is given are seen to be on subterms. *)
Fixpoint Forall_all {A} {P : A -> Prop} (h : forall x, P x) (l : list A)
  : Forall P l :=
  match l with
  | [] => @List.Forall_nil A P
  | x :: l' => @List.Forall_cons A P x l' (h x) (Forall_all h l')
  end.

Definition safe_for_opt {A} (f : A -> ScanM R unit) (h : forall x, Safe (f x))
    (o : option A) : Safe (for_opt f o) :=
  match o as o0 return Safe (for_opt f o0) with
  | Some y => h y
  | None => safe_top _ safe_ret
  end.

Lemma safetop_if (b : bool) (m1 m2 : ScanM R unit) :
  SafeTop m1 -> SafeTop m2 -> SafeTop (if b then m1 else m2).
Proof. by destruct b. Qed.

(** Running steps. *)
Lemma modify_bind (f : Scanner R -> Scanner R) (k : ScanM R unit) (s : Scanner R) :
  (modify f ;; k) s = k (f s).
Proof. reflexivity. Qed.

Lemma get_bind (k : Scanner R -> ScanM R unit) (s : Scanner R) : sbind get k s = k s s.
Proof. reflexivity. Qed.

Lemma bind_some (m k : ScanM R unit) (s s1 : Scanner R) :
  m s = Some (tt, s1) -> (m ;; k) s = k s1.
Proof. unfold sbind. by intros ->. Qed.

Lemma pop_step (s : Scanner R) (b : EffectBlock) (bs : list EffectBlock) :
  scope_effect_blocks s = b :: bs ->
  pop_effect_block s = Some (tt, set_data (set_blocks s bs) (push_result_block (data s) b)).
Proof. intros E. unfold pop_effect_block, sbind, get. simpl. by rewrite E. Qed.

Lemma push_types (bs : list EffectBlock) (e : EffectInstance) :
  map block_type (push_into_top_block bs e) = map block_type bs.
Proof. by destruct bs. Qed.

Lemma count_app (bs : list EffectBlock) (b : EffectBlock) :
  count_fn_blocks (bs ++ [b])%list =
  count_fn_blocks bs + (if is_fn_block b then 1 else 0).
Proof.
  unfold count_fn_blocks. rewrite List.filter_app, length_app. simpl.
  by destruct (is_fn_block b).
Qed.

(** *** Steps on the results *)

Ltac grows_tac := constructor; simpl;
  first [reflexivity | prefix_app | set_solver | lia].

Lemma drel_push_effect d e : drel d (push_result_effect d e).
Proof. constructor; [grows_tac| |]; simpl; auto. Qed.

Lemma drel_push_block d b :
  is_fn_block b = false -> drel d (push_result_block d b).
Proof.
  intros Hb. constructor; [grows_tac| |]; simpl; auto.
  rewrite count_app, Hb. lia.
Qed.

Lemma drel_tracker d t : drel d (tracker_add d t).
Proof.
  constructor; [|simpl; auto|simpl; auto].
  unfold tracker_add; constructor; simpl; try reflexivity;
    repeat case_decide; lia.
Qed.

Lemma drel_unsafe_trait d t : drel d (push_unsafe_trait d t).
Proof. constructor; [grows_tac| |]; simpl; auto. Qed.

Lemma drel_unsafe_impl d t : drel d (push_unsafe_impl d t).
Proof. constructor; [grows_tac| |]; simpl; auto. Qed.

Lemma drel_add_edge d x y a b :
  node_idxs d !! x = Some a -> node_idxs d !! y = Some b ->
  drel d (add_edge d a b).
Proof.
  intros Ha Hb. constructor; [grows_tac| |simpl; lia].
  intros [Hk He]. split; simpl; [exact Hk|].
  intros a' b' Hin. apply elem_of_app in Hin as [Hin|Hin]; [by apply He|].
  apply list_elem_of_singleton in Hin. injection Hin as -> ->.
  split; eapply lookup_lt_Some; eauto.
Qed.

Lemma grows_add_fn_dec d f : grows d (add_fn_dec d f).
Proof.
  constructor; simpl; try reflexivity; try prefix_app;
    try (rewrite dom_insert_L; set_solver).
  destruct (fn_vis f); set_solver.
Qed.

Lemma wf_add_fn_dec d f : wf_graph d -> wf_graph (add_fn_dec d f).
Proof.
  intros [Hk He]. split; simpl.
  - intros k i. rewrite lookup_insert. case_decide as Heq.
    + intros [= <-]. subst k. rewrite lookup_app_r by lia.
      by rewrite Nat.sub_diag.
    + intros Hi. apply lookup_app_l_Some. by apply Hk.
  - intros a b Hin. rewrite length_app. simpl.
    destruct (He a b Hin). lia.
Qed.

(** *** Steps of the scanner *)

Lemma track_safe t : SafeTop (track t).
Proof. intros s. eexists; split; [reflexivity|]. apply Inv_set_data, drel_tracker. Qed.

Lemma modify_resolver_safe f : SafeTop (modify_resolver f).
Proof.
  intros s. eexists; split; [reflexivity|].
  split; [constructor; simpl; auto|apply drel_refl].
Qed.

Lemma push_effect_safe cp eff : SafeTop (push_effect cp eff).
Proof.
  intros s. unfold push_effect. rewrite get_bind. cbv beta zeta.
  eexists; split; [reflexivity|].
  split; [constructor; simpl; auto using push_types|apply drel_push_effect].
Qed.

Lemma push_callsite_safe callee ffi u : Safe (push_callsite callee ffi u).
Proof.
  intros s Hs. unfold push_callsite. rewrite get_bind.
  destruct (scope_fns s) as [|fd fs] eqn:Ef; [done|].
  eexists; split; [reflexivity|].
  split; [constructor; simpl; auto using push_types|].
  simpl. eapply drel_trans; [|apply drel_push_effect].
  destruct (node_idxs (data s) !! fn_name fd) eqn:E1,
           (node_idxs (data s) !! callee) eqn:E2;
    try apply drel_refl.
  eapply drel_add_edge; eauto.
Qed.

Lemma scan_path_safe p : SafeTop (scan_path p).
Proof.
  unfold scan_path. apply safetop_get. intros s0.
  apply safetop_bind; [apply safetop_if; [apply push_effect_safe|apply safe_ret]|].
  apply safetop_bind; [apply safetop_if; [apply push_effect_safe|apply safe_ret]|].
  destruct (resolve_ffi _ _); [apply push_effect_safe|apply safe_ret].
Qed.

Lemma scan_closure_safe sp : SafeTop (scan_closure sp).
Proof.
  unfold scan_closure. destruct (create_closure_ident sp);
    [apply push_effect_safe|apply safe_ret].
Qed.

Lemma scan_deref_safe x : SafeTop (scan_deref x).
Proof.
  unfold scan_deref. apply safetop_get. intros s0.
  apply safetop_for_each, Forall_forall. intros i _.
  apply safetop_if; [apply push_effect_safe|apply safe_ret].
Qed.

Lemma scan_field_access_safe m : SafeTop (scan_field_access m).
Proof.
  destruct m; simpl; [|apply safe_ret].
  apply safetop_get. intros s0.
  apply safetop_if; [apply safe_ret|apply push_effect_safe].
Qed.

Lemma scan_expr_call_field_safe m : Safe (scan_expr_call_field m).
Proof.
  unfold scan_expr_call_field. apply safe_get. intros s0.
  destruct m; apply push_callsite_safe.
Qed.

Lemma scan_expr_call_method_safe i : Safe (scan_expr_call_method i).
Proof.
  unfold scan_expr_call_method. apply safe_get. intros s0.
  apply push_callsite_safe.
Qed.

Lemma scan_call_path_safe p : Safe (scan_expr_call (PathExpr p)).
Proof. simpl. apply safe_get. intros s0. apply push_callsite_safe. Qed.

Fixpoint scan_expr_call_safe (f : Expr) : Safe (scan_expr_call f) :=
  match f as f0 return Safe (scan_expr_call f0) with
  | PathExpr p => scan_call_path_safe p
  | Paren x => scan_expr_call_safe x
  | Field _ m => scan_expr_call_field_safe m
  | Macro _ => safe_top _ (track_safe TMacros)
  | _ => safe_top _ (track_safe TFnCalls)
  end.

Lemma scan_unary_safe op x :
  SafeTop (match op with Deref => scan_deref x | _ => sret tt end).
Proof. destruct op; [apply scan_deref_safe|apply safe_ret|apply safe_ret]. Qed.

Lemma scan_foreign_item_safe i : SafeTop (scan_foreign_item i).
Proof. destruct i; [apply modify_resolver_safe|apply track_safe|apply track_safe]. Qed.

Lemma scan_impl_trait_path_safe u tr st : SafeTop (scan_impl_trait_path u tr st).
Proof.
  unfold scan_impl_trait_path. destruct u; [|apply safe_ret].
  apply safetop_get. intros s0. intros s. eexists; split; [reflexivity|].
  apply Inv_set_data, drel_unsafe_impl.
Qed.

Lemma scan_trait_safe (unsafety : bool) (ident : Ident) :
  SafeTop (let* s := get in
           let t_name := resolve_def (resolver s) ident in
           if unsafety
           then modify (fun s : Scanner R => set_data s (push_unsafe_trait (data s) t_name))
           else sret tt).
Proof.
  apply safetop_get. intros s0. destruct unsafety; [|apply safe_ret].
  intros s. cbv zeta beta delta [modify]. eexists; split; [reflexivity|].
  apply Inv_set_data, drel_unsafe_trait.
Qed.

Lemma safetop_skip (b : bool) (m : ScanM R unit) :
  SafeTop m -> SafeTop (if b then track TConditional else m).
Proof. intros Hm. apply safetop_if; [apply track_safe|exact Hm]. Qed.

Lemma safe_assign (lhs rhs : ScanM R unit) :
  Safe lhs -> Safe rhs ->
  Safe (modify (fun s => set_assign_lhs s true) ;; lhs ;;
        modify (fun s => set_assign_lhs s false) ;; rhs).
Proof.
  intros Hl Hr s Hs. rewrite modify_bind.
  destruct (Hl (set_assign_lhs s true)) as (s2 & E2 & [F2 D2]); [exact Hs|].
  rewrite (bind_some _ _ _ _ E2), modify_bind.
  destruct (Hr (set_assign_lhs s2 false)) as (s4 & E4 & [F4 D4]).
  { simpl. rewrite (fr_fns _ _ F2). exact Hs. }
  exists s4. split; [exact E4|].
  destruct F2, F4; simpl in *. split.
  - constructor; try congruence. intros _. auto.
  - eapply drel_trans; [exact D2|exact D4].
Qed.

Lemma scan_unsafe_block_safe (body : ScanM R unit) :
  Safe body -> Safe (scan_unsafe_block body).
Proof.
  intros Hb s Hs. unfold scan_unsafe_block, modify_unsafe.
  rewrite modify_bind, get_bind. simpl.
  destruct (scope_fns s) as [|fd fs] eqn:Ef; [done|].
  rewrite modify_bind.
  destruct (Hb (set_blocks (set_unsafe s (S (scope_unsafe s)))
                  (mkEffectBlock UnsafeExpr fd [] :: scope_effect_blocks s)))
    as (s2 & E2 & [F2 D2]).
  { simpl. rewrite Ef. done. }
  rewrite (bind_some _ _ _ _ E2).
  pose proof (fr_types _ _ F2) as T2. simpl in T2.
  destruct (scope_effect_blocks s2) as [|b bs] eqn:Eb2; [discriminate|].
  injection T2 as Tb Tbs.
  rewrite (bind_some _ _ _ _ (pop_step _ _ _ Eb2)).
  eexists; split; [reflexivity|].
  destruct F2; simpl in *. split.
  - constructor; simpl; try congruence.
    + rewrite fr_unsafe0. reflexivity.
    + intros Hl. auto.
  - eapply drel_trans; [exact D2|]. apply drel_push_block.
    unfold is_fn_block. by rewrite Tb.
Qed.

Lemma scan_fn_safe (f_sig : Signature) (vis : Visibility) (body : ScanM R unit) :
  Safe body -> SafeTop (scan_fn f_sig vis body).
Proof.
  intros Hb s. unfold scan_fn, modify_resolver, modify_unsafe.
  rewrite get_bind. cbv zeta.
  set (fd := mkFnDec (resolve_def (resolver s) (sig_ident f_sig)) vis (sig_span f_sig)).
  set (eb := if sig_unsafety f_sig then mkEffectBlock UnsafeFn fd []
             else mkEffectBlock NormalFn fd []).
  rewrite !modify_bind.
  set (s3 := set_data (set_resolver (set_fns s (fd :: scope_fns s))
                          (push_fn (resolver (set_fns s (fd :: scope_fns s))) (sig_ident f_sig)))
               (add_fn_dec (data (set_resolver (set_fns s (fd :: scope_fns s))
                          (push_fn (resolver (set_fns s (fd :: scope_fns s))) (sig_ident f_sig)))) fd)).
  set (s4 := if sig_unsafety f_sig then set_unsafe s3 (S (scope_unsafe s3)) else s3).
  assert (E4 : forall k : ScanM R unit,
            ((if sig_unsafety f_sig then modify (fun s => set_unsafe s (S (scope_unsafe s)))
              else sret tt) ;; k) s3 = k s4).
  { intros k. unfold s4. destruct (sig_unsafety f_sig); reflexivity. }
  rewrite E4, modify_bind.
  set (s5 := set_blocks s4 (eb :: scope_effect_blocks s4)).
  destruct (Hb s5) as (s6 & E6 & [F6 D6]).
  { unfold s5, s4. destruct (sig_unsafety f_sig); simpl; done. }
  rewrite (bind_some _ _ _ _ E6), !modify_bind.
  pose proof (fr_types _ _ F6) as T6.
  assert (Ts5 : map block_type (scope_effect_blocks s5) =
                block_type eb :: map block_type (scope_effect_blocks s)).
  { unfold s5, s4. destruct (sig_unsafety f_sig); reflexivity. }
  rewrite Ts5 in T6.
  destruct (scope_effect_blocks s6) as [|b bs] eqn:Eb6; [discriminate|].
  injection T6 as Tb Tbs.
  set (s8 := set_resolver (set_fns s6 (tail (scope_fns s6)))
               (pop_fn (resolver (set_fns s6 (tail (scope_fns s6)))))).
  assert (Eb8 : scope_effect_blocks s8 = b :: bs) by exact Eb6.
  rewrite (bind_some _ _ _ _ (pop_step _ _ _ Eb8)).
  set (s9 := set_data (set_blocks s8 bs) (push_result_block (data s8) b)).
  exists (if sig_unsafety f_sig then set_unsafe s9 (pred (scope_unsafe s9)) else s9).
  split; [by destruct (sig_unsafety f_sig)|].
  (* facts on the intermediate states *)
  assert (Hfns5 : scope_fns s5 = fd :: scope_fns s).
  { unfold s5, s4. destruct (sig_unsafety f_sig); reflexivity. }
  assert (Hun5 : scope_unsafe s5 =
                 if sig_unsafety f_sig then S (scope_unsafe s) else scope_unsafe s).
  { unfold s5, s4. destruct (sig_unsafety f_sig); reflexivity. }
  assert (Hsk5 : sinks s5 = sinks s).
  { unfold s5, s4. destruct (sig_unsafety f_sig); reflexivity. }
  assert (Hl5 : scope_assign_lhs s5 = scope_assign_lhs s).
  { unfold s5, s4. destruct (sig_unsafety f_sig); reflexivity. }
  assert (Hd5 : data s5 = add_fn_dec (data s) fd).
  { unfold s5, s4. destruct (sig_unsafety f_sig); reflexivity. }
  assert (Hfb : is_fn_block b = true).
  { unfold is_fn_block. rewrite Tb. unfold eb. by destruct (sig_unsafety f_sig). }
  destruct F6 as [Ff Fu Ft Fs Fl].
  assert (D9 : drel (data s) (data s9)).
  { destruct D6 as [G6 W6 C6]. rewrite Hd5 in G6, W6, C6.
    unfold s9, s8. simpl. constructor.
    - eapply grows_trans; [apply grows_add_fn_dec|].
      eapply grows_trans; [exact G6|]. grows_tac.
    - intros W. simpl. apply W6, wf_add_fn_dec, W.
    - unfold push_result_block; cbn [effect_blocks call_graph_nodes].
      rewrite count_app, Hfb.
      unfold add_fn_dec in C6; cbn [effect_blocks call_graph_nodes] in C6.
      rewrite length_app in C6. simpl in C6. lia. }
  assert (Fr9 : scope_fns s9 = scope_fns s /\
                map block_type (scope_effect_blocks s9) =
                map block_type (scope_effect_blocks s) /\
                sinks s9 = sinks s /\
                (scope_assign_lhs s = false -> scope_assign_lhs s9 = false) /\
                scope_unsafe s9 = scope_unsafe s5).
  { unfold s9, s8. simpl. rewrite Ff, Hfns5. split_and!; try done; try congruence.
    intros Hl. apply Fl. congruence. }
  destruct Fr9 as (Hf9 & Ht9 & Hs9 & Hl9 & Hu9).
  destruct (sig_unsafety f_sig) eqn:Eu; split; try exact D9.
  - constructor; [exact Hf9| |exact Ht9|exact Hs9|exact Hl9].
    change (pred (scope_unsafe s9) = scope_unsafe s). rewrite Hu9, Hun5. reflexivity.
  - constructor; [exact Hf9| |exact Ht9|exact Hs9|exact Hl9].
    rewrite Hu9, Hun5. reflexivity.
Qed.

Lemma scan_foreign_mod_safe (items : list ForeignItem) :
  SafeTop (modify_unsafe S ;; for_each scan_foreign_item items ;; modify_unsafe pred).
Proof.
  intros s. unfold modify_unsafe. rewrite modify_bind.
  destruct (safetop_for_each _ _ (Forall_all scan_foreign_item_safe items)
              (set_unsafe s (S (scope_unsafe s)))) as (s2 & E2 & [F2 D2]).
  rewrite (bind_some _ _ _ _ E2).
  eexists; split; [reflexivity|].
  destruct F2; simpl in *. split.
  - constructor; simpl; try congruence.
    + rewrite fr_unsafe0. reflexivity.
    + intros Hl. auto.
  - exact D2.
Qed.

(** Every scan of an expression or statement keeps [Inv] and never panics
    inside a function; every scan of an item keeps [Inv] and never
    panics. *)
Fixpoint scan_expr_safe (e : Expr) : Safe (scan_expr e) :=
  match e as e0 return Safe (scan_expr e0) with
  | Array elems => safe_for_each _ _ (Forall_all scan_expr_safe elems)
  | Assign lhs rhs => safe_assign _ _ (scan_expr_safe lhs) (scan_expr_safe rhs)
  | Async stmts => safe_for_each _ _ (Forall_all scan_fn_statement_safe stmts)
  | Await base => scan_expr_safe base
  | Binary lhs rhs => safe_bind _ _ (scan_expr_safe lhs) (scan_expr_safe rhs)
  | Block stmts => safe_for_each _ _ (Forall_all scan_fn_statement_safe stmts)
  | Break o => safe_for_opt scan_expr scan_expr_safe o
  | Call func args =>
      safe_bind _ _ (safe_for_each _ _ (Forall_all scan_expr_safe args))
        (scan_expr_call_safe func)
  | Cast x => scan_expr_safe x
  | Closure sp => safe_top _ (scan_closure_safe sp)
  | Continue => safe_top _ safe_ret
  | Field base m => safe_bind _ _ (scan_expr_safe base) (safe_top _ (scan_field_access_safe m))
  | ForLoop x body =>
      safe_bind _ _ (scan_expr_safe x)
        (safe_for_each _ _ (Forall_all scan_fn_statement_safe body))
  | Group x => scan_expr_safe x
  | If cond then_branch else_branch =>
      safe_bind _ _ (scan_expr_safe cond)
        (safe_bind _ _ (safe_for_each _ _ (Forall_all scan_fn_statement_safe then_branch))
           (safe_for_opt scan_expr scan_expr_safe else_branch))
  | Index x index => safe_bind _ _ (scan_expr_safe x) (scan_expr_safe index)
  | Let x => scan_expr_safe x
  | Lit => safe_top _ safe_ret
  | Loop body => safe_for_each _ _ (Forall_all scan_fn_statement_safe body)
  | Macro _ => safe_top _ (track_safe TMacros)
  | Match x arms =>
      safe_bind _ _ (scan_expr_safe x)
        (safe_for_each _ _
           (Forall_all (fun a => safe_bind _ _ (safe_for_opt scan_expr scan_expr_safe (fst a))
                                   (scan_expr_safe (snd a))) arms))
  | MethodCall receiver method args =>
      safe_bind _ _ (scan_expr_safe receiver)
        (safe_bind _ _ (safe_for_each _ _ (Forall_all scan_expr_safe args))
           (scan_expr_call_method_safe method))
  | Paren x => scan_expr_safe x
  | PathExpr p => safe_top _ (scan_path_safe p)
  | Range start end_ =>
      safe_bind _ _ (safe_for_opt scan_expr scan_expr_safe start)
        (safe_for_opt scan_expr scan_expr_safe end_)
  | Reference x => scan_expr_safe x
  | Repeat x len => safe_bind _ _ (scan_expr_safe x) (scan_expr_safe len)
  | Return o => safe_for_opt scan_expr scan_expr_safe o
  | Struct fields rest =>
      safe_bind _ _ (safe_for_each _ _ (Forall_all scan_expr_safe fields))
        (safe_for_opt scan_expr scan_expr_safe rest)
  | Try x => scan_expr_safe x
  | TryBlock stmts => safe_for_each _ _ (Forall_all scan_fn_statement_safe stmts)
  | Tuple elems => safe_for_each _ _ (Forall_all scan_expr_safe elems)
  | Unary op x => safe_bind _ _ (safe_top _ (scan_unary_safe op x)) (scan_expr_safe x)
  | Unsafe stmts =>
      scan_unsafe_block_safe _ (safe_for_each _ _ (Forall_all scan_fn_statement_safe stmts))
  | Verbatim => safe_top _ safe_ret
  | While cond body =>
      safe_bind _ _ (scan_expr_safe cond)
        (safe_for_each _ _ (Forall_all scan_fn_statement_safe body))
  | Yield o => safe_for_opt scan_expr scan_expr_safe o
  | Other => safe_top _ safe_ret
  end
with scan_fn_statement_safe (st : Stmt) : Safe (scan_fn_statement st) :=
  match st as st0 return Safe (scan_fn_statement st0) with
  | Local init =>
      match init as i0 return Safe (scan_fn_statement (Local i0)) with
      | Some (x, diverge) =>
          safe_bind _ _ (scan_expr_safe x) (safe_for_opt scan_expr scan_expr_safe diverge)
      | None => safe_top _ safe_ret
      end
  | ExprStmt x => scan_expr_safe x
  | ItemStmt i => safe_top _ (scan_item_safe i)
  | MacroStmt => safe_top _ (track_safe TMacros)
  end
with scan_item_safe (i : Item) : SafeTop (scan_item i) :=
  match i as i0 return SafeTop (scan_item i0) with
  | ItemMod attrs ident content =>
      safetop_skip (skip_attrs attrs) _
        (match content as c return
           SafeTop (match c with
                    | Some items =>
                        modify_resolver (fun r => push_mod r ident) ;;
                        for_each scan_item items ;;
                        modify_resolver pop_mod
                    | None => sret tt
                    end) with
         | Some items =>
             safetop_bind _ _ (modify_resolver_safe _)
               (safetop_bind _ _ (safetop_for_each _ _ (Forall_all scan_item_safe items))
                  (modify_resolver_safe _))
         | None => safe_ret
         end)
  | ItemUse u => modify_resolver_safe _
  | ItemImpl attrs unsafety impl_id trait_ self_ty items =>
      safetop_skip (skip_attrs attrs) _
        (safetop_bind _ _ (modify_resolver_safe _)
           (safetop_bind _ _
              (match trait_ as t return
                 SafeTop (for_opt (fun tr => scan_impl_trait_path unsafety tr self_ty) t) with
               | Some tr => scan_impl_trait_path_safe unsafety tr self_ty
               | None => safe_ret
               end)
              (safetop_bind _ _ (safetop_for_each _ _ (Forall_all scan_impl_item_safe items))
                 (modify_resolver_safe _))))
  | ItemFn attrs vis sig block =>
      safetop_skip (skip_attrs attrs) _
        (scan_fn_safe sig vis _ (safe_for_each _ _ (Forall_all scan_fn_statement_safe block)))
  | ItemTrait attrs unsafety ident =>
      safetop_skip (skip_attrs attrs) _ (scan_trait_safe unsafety ident)
  | ItemForeignMod attrs items =>
      safetop_skip (skip_attrs attrs) _ (scan_foreign_mod_safe items)
  | ItemMacro => track_safe TMacros
  | ItemOther => safe_ret
  end
with scan_impl_item_safe (ii : ImplItem) : SafeTop (scan_impl_item ii) :=
  match ii as ii0 return SafeTop (scan_impl_item ii0) with
  | ImplFn attrs vis sig block =>
      safetop_skip (skip_attrs attrs) _
        (scan_fn_safe sig vis _ (safe_for_each _ _ (Forall_all scan_fn_statement_safe block)))
  | ImplMacro => track_safe TMacros
  | ImplVerbatim => safe_ret
  | ImplOther => track_safe TOther
  end.

Lemma scan_file_safe (items : list Item) : SafeTop (scan_file items).
Proof. exact (safetop_for_each _ _ (Forall_all scan_item_safe items)). Qed.

End Inv.
(** *** Properties of a scan *)

Section ScanFile.
Context {R : Type} `{Resolve R} `{SynHelpers}.

(** Scanning a file never panics, from any scanner state; scanning an
    expression never panics inside a function; outside a function, a
    call expression panics (the [expect] of [push_callsite]). *)
Theorem scan_never_panics_inside_fn :
  (forall (items : list Item) (s : Scanner R),
     exists s', scan_file items s = Some (tt, s')) /\
  (forall (e : Expr) (s : Scanner R),
     scope_fns s <> [] -> exists s', scan_expr e s = Some (tt, s')) /\
  (forall (p : Path) (s : Scanner R),
     scope_fns s = [] -> scan_expr (Call (PathExpr p) []) s = None).
Proof.
  split_and!.
  - intros items s. destruct (scan_file_safe items s) as (s' & E & _). eauto.
  - intros e s Hs. destruct (scan_expr_safe e s Hs) as (s' & E & _). eauto.
  - intros p s Hs. cbn [scan_expr scan_expr_call for_each].
    unfold sbind, get, sret, push_callsite, sbind, get. cbn. rewrite Hs. reflexivity.
Qed.

(** From a fresh scanner, scanning a file ends at the top level: the
    two assertions of [assert_top_level_invariant] hold (no open effect
    block, [scope_unsafe] zero), no function is in scope, the assignment
    flag is clear and the sinks are unchanged. *)
Theorem scan_file_top_level_invariant (r : R) (d : ScanResults)
    (sinks0 : list CanonicalPath) (items : list Item) :
  exists s', scan_file items (Scanner_new r d sinks0) = Some (tt, s') /\
    ScanDriver.assert_top_level_invariant s' = true /\
    scope_fns s' = [] /\ scope_assign_lhs s' = false /\ sinks s' = sinks0.
Proof.
  destruct (scan_file_safe items (Scanner_new r d sinks0)) as (s' & E & [F _]).
  exists s'. split; [exact E|]. destruct F as [Ff Fu Ft Fs Fl]; simpl in *.
  apply map_eq_nil in Ft. unfold ScanDriver.assert_top_level_invariant.
  rewrite Ft, Fu. split_and!; auto.
Qed.

(** Scanning a file only adds to the results: the effects, effect
    blocks, unsafe traits and impls, call-graph nodes and edges are
    extended at the end, the public functions and the keys of [fn_locs]
    and [node_idxs] only grow, and the skip counters never decrease. *)
Theorem scan_file_results_grow (items : list Item) (s : Scanner R) :
  exists s', scan_file items s = Some (tt, s') /\ grows (data s) (data s').
Proof.
  destruct (scan_file_safe items s) as (s' & E & [_ D]).
  exists s'. split; [exact E|]. exact (dr_grows _ _ D).
Qed.

End ScanFile.

Section Driver.
Context {Resolver FileResolver : Type} `{Resolve FileResolver} `{SynHelpers}.
Variables (read_file : string -> result string string)
          (parse_file : string -> result (list Item) string)
          (file_resolver_new : string -> Resolver -> string -> result FileResolver string)
          (default_sinks : list CanonicalPath)
          (is_dir is_file : string -> bool)
          (try_exists : string -> result bool string)
          (load_cargo_toml : string -> result ScanDriver.CrateData string)
          (resolver_new : string -> result Resolver string)
          (walk_files_with_extension : string -> string -> list string)
          (join : string -> string -> string).

Lemma scan_file_top_drel crate_name filepath resolver d sinks0 :
  match ScanDriver.scan_file_top read_file parse_file file_resolver_new default_sinks
          crate_name filepath resolver d sinks0 with
  | Some (Err _, d') => d' = d
  | Some (Ok _, d') => drel d d'
  | None => False
  end.
Proof.
  unfold ScanDriver.scan_file_top.
  destruct (read_file filepath) as [src|e]; [|done].
  destruct (parse_file src) as [items|e]; [|done].
  destruct (file_resolver_new crate_name resolver filepath) as [fr|e]; [|done].
  destruct (scan_file_safe items
              (ScanDriver.add_sinks (Scanner_new fr d default_sinks) sinks0))
    as (s' & -> & [_ D]).
  exact D.
Qed.

Lemma scan_files_drel crate_name resolver files d sinks0 :
  match ScanDriver.scan_files read_file parse_file file_resolver_new default_sinks
          crate_name resolver files d sinks0 with
  | Some d' => drel d d'
  | None => False
  end.
Proof.
  revert d. induction files as [|f files IH]; intros d; simpl; [apply drel_refl|].
  unfold ScanDriver.try_scan_file.
  pose proof (scan_file_top_drel crate_name f resolver d sinks0) as Hf.
  destruct (ScanDriver.scan_file_top _ _ _ _ _ _ _ _ _) as [[[[]|e] d1]|]; [| |done].
  - specialize (IH d1). destruct (ScanDriver.scan_files _ _ _ _ _ _ _ _ _); [|done].
    eapply drel_trans; eauto.
  - subst d1. apply IH.
Qed.

Lemma scan_crate_drel crate_path sinks0 :
  match ScanDriver.scan_crate_with_sinks read_file parse_file file_resolver_new
          default_sinks is_dir is_file try_exists load_cargo_toml resolver_new
          walk_files_with_extension join crate_path sinks0 with
  | Some (Ok d) => drel ScanResults_new d
  | Some (Err _) => True
  | None => False
  end.
Proof.
  unfold ScanDriver.scan_crate_with_sinks.
  destruct (negb (is_dir crate_path)); [done|].
  destruct (try_exists _) as [ex|e]; [|done].
  destruct (negb ex || negb (is_file _)); [done|].
  destruct (load_cargo_toml crate_path) as [cargo|e]; [|done].
  destruct (resolver_new crate_path) as [resolver|e]; [|done].
  match goal with
  | |- match match ScanDriver.scan_files _ _ _ _ ?cn ?r ?fs ?d ?sk with _ => _ end
        with _ => _ end =>
      pose proof (scan_files_drel cn r fs d sk) as Hd;
      destruct (ScanDriver.scan_files _ _ _ _ cn r fs d sk)
  end; done.
Qed.

(** [try_scan_file] never panics; when the file cannot be read or
    parsed, or its resolver cannot be built, the results are left as
    they were, and otherwise they only grow. *)
Theorem try_scan_file_outcome (crate_name filepath : string) (resolver : Resolver)
    (d : ScanResults) (sinks0 : list CanonicalPath) :
  match ScanDriver.scan_file_top read_file parse_file file_resolver_new default_sinks
          crate_name filepath resolver d sinks0 with
  | Some (Err _, d') => d' = d
  | Some (Ok _, d') => grows d d'
  | None => False
  end /\
  exists d', ScanDriver.try_scan_file read_file parse_file file_resolver_new
               default_sinks crate_name filepath resolver d sinks0 = Some d'.
Proof.
  pose proof (scan_file_top_drel crate_name filepath resolver d sinks0) as Hf.
  unfold ScanDriver.try_scan_file.
  destruct (ScanDriver.scan_file_top _ _ _ _ _ _ _ _ _) as [[[[]|e] d1]|]; [| |done].
  - split; [exact (dr_grows _ _ Hf)|eauto].
  - split; [exact Hf|eauto].
Qed.

(** Scanning a crate never panics, and the results it returns have a
    well-formed call graph: every key of [node_idxs] maps to a node
    labelled with that key, and every edge joins two existing nodes. *)
Theorem scan_crate_call_graph_wf (crate_path : string) (sinks0 : list CanonicalPath) :
  match ScanDriver.scan_crate_with_sinks read_file parse_file file_resolver_new
          default_sinks is_dir is_file try_exists load_cargo_toml resolver_new
          walk_files_with_extension join crate_path sinks0 with
  | Some (Ok d) => wf_graph d
  | Some (Err _) => True
  | None => False
  end.
Proof.
  pose proof (scan_crate_drel crate_path sinks0) as Hc.
  destruct (ScanDriver.scan_crate_with_sinks _ _ _ _ _ _ _ _ _ _ _ _ _)
    as [[d|e]|]; [|done|done].
  apply (dr_wf _ _ Hc). split; simpl.
  - intros k i Hk. by rewrite lookup_empty in Hk.
  - intros a b Hin. by apply elem_of_nil in Hin.
Qed.

(** In the results of scanning a crate, the call graph has exactly one
    node per effect block of a function declaration ([NormalFn] or
    [UnsafeFn]). *)
Theorem scan_crate_nodes_match_fn_blocks (crate_path : string)
    (sinks0 : list CanonicalPath) :
  match ScanDriver.scan_crate_with_sinks read_file parse_file file_resolver_new
          default_sinks is_dir is_file try_exists load_cargo_toml resolver_new
          walk_files_with_extension join crate_path sinks0 with
  | Some (Ok d) => length (call_graph_nodes d) = count_fn_blocks (effect_blocks d)
  | Some (Err _) => True
  | None => False
  end.
Proof.
  pose proof (scan_crate_drel crate_path sinks0) as Hc.
  destruct (ScanDriver.scan_crate_with_sinks _ _ _ _ _ _ _ _ _ _ _ _ _)
    as [[d|e]|]; [|done|done].
  pose proof (dr_count _ _ Hc) as C. simpl in C. unfold count_fn_blocks in *.
  simpl in C. lia.
Qed.

End Driver.

Section Concrete.
Import ModResolver.

(** A scanner inside the body of [fn main], at the root of a crate. *)
Definition inside_main : Scanner ModRes :=
  mkScanner (mkModRes [] ["field"])
    [mkEffectBlock NormalFn (mkFnDec ["main"] Inherited 0) []] 0 false
    [mkFnDec ["main"] Inherited 0] ScanResults_new [].

Lemma scan_never_panics_inside_fn_witness :
  (exists s', scan_expr (Call (PathExpr ["f"]) []) inside_main = Some (tt, s')) /\
  scan_expr (Call (PathExpr ["f"]) []) fresh = None.
Proof.
  destruct (@scan_never_panics_inside_fn ModRes _ _) as (_ & He & Hp).
  split; [apply He; discriminate | apply Hp; reflexivity].
Defined.

End Concrete.

End ScanInvariants.

(* ===================================================================== *)
(** ** Properties of the scanner *)
(* ===================================================================== *)
Module ScannerProofs.
Import Syn ScannerModel ScanMeasures.

Section UnionField.
Context {R : Type} `{Resolve R} `{SynHelpers}.

(** A computation that never panics, adds no [UnionField] effect, and
    leaves the assignment flag and the resolver as they were. *)
Definition union_silent (m : ScanM R unit) : Prop :=
  forall s, exists s', m s = Some (tt, s') /\
    union_count s' = union_count s /\
    scope_assign_lhs s' = scope_assign_lhs s /\
    resolver s' = resolver s.

Lemma bind_step (m k : ScanM R unit) (s s1 : Scanner R) :
  m s = Some (tt, s1) -> (m ;; k) s = k s1.
Proof. unfold sbind. intros ->. reflexivity. Qed.

Lemma union_silent_ret : union_silent (sret tt).
Proof. intros s. exists s. done. Qed.

Lemma union_silent_bind (m k : ScanM R unit) :
  union_silent m -> union_silent k -> union_silent (m ;; k).
Proof.
  intros Hm Hk s. destruct (Hm s) as (s1 & E1 & U1 & L1 & R1).
  destruct (Hk s1) as (s2 & E2 & U2 & L2 & R2).
  exists s2. rewrite (bind_step _ _ _ _ E1). split; [done|]. split_and!; congruence.
Qed.

Lemma union_silent_get (k : Scanner R -> ScanM R unit) :
  (forall s0, union_silent (k s0)) -> union_silent (let* s0 := get in k s0).
Proof. intros Hk s. apply (Hk s). Qed.

Lemma union_count_push (s : Scanner R) (bs : list EffectBlock) (e : EffectInstance) :
  union_count (set_data (set_blocks s bs) (push_result_effect (data s) e)) =
  union_count s + (if is_union_effect e then 1 else 0).
Proof.
  unfold union_count. simpl. rewrite List.filter_app, length_app. simpl.
  destruct (is_union_effect e); simpl; lia.
Qed.

Lemma push_effect_step (cp : CanonicalPath) (eff : Effect) (s : Scanner R) :
  exists s', push_effect cp eff s = Some (tt, s') /\
    union_count s' = union_count s +
      (match eff with UnionField _ => 1 | _ => 0 end) /\
    scope_assign_lhs s' = scope_assign_lhs s /\ resolver s' = resolver s.
Proof.
  eexists. split; [unfold push_effect, sbind, get, modify; reflexivity|].
  rewrite union_count_push.
  split; [|done]. destruct eff; reflexivity.
Qed.

Lemma push_effect_silent (cp : CanonicalPath) (eff : Effect) :
  (forall t, eff <> UnionField t) -> union_silent (push_effect cp eff).
Proof.
  intros Hne s. destruct (push_effect_step cp eff s) as (s' & E & U & L & Rr).
  exists s'. split; [done|]. split; [|done].
  rewrite U. destruct eff; try lia. exfalso. by eapply Hne.
Qed.

Lemma scan_path_silent (p : Path) : union_silent (scan_path p).
Proof.
  unfold scan_path. apply union_silent_get. intros s0.
  repeat apply union_silent_bind.
  - destruct (_ || _); [apply push_effect_silent; discriminate|apply union_silent_ret].
  - destruct (is_mut_static _); [apply push_effect_silent; discriminate|apply union_silent_ret].
  - destruct (resolve_ffi _ _); [apply push_effect_silent; discriminate|apply union_silent_ret].
Qed.

(** On the left of an assignment, [scan_field_access] does nothing. *)
Lemma scan_field_access_lhs (m : Member) (s : Scanner R) :
  scope_assign_lhs s = true -> scan_field_access m s = Some (tt, s).
Proof.
  intros Hl. destruct m as [i|idx]; [|reflexivity].
  unfold scan_field_access, sbind, get. rewrite Hl, orb_true_r. reflexivity.
Qed.

Lemma union_silent_set_lhs (b : bool) (k : ScanM R unit) (s : Scanner R) :
  union_silent k ->
  exists s', (modify (fun s => set_assign_lhs s b) ;; k) s = Some (tt, s') /\
    union_count s' = union_count s /\ scope_assign_lhs s' = b /\
    resolver s' = resolver s.
Proof.
  intros Hk. destruct (Hk (set_assign_lhs s b)) as (s' & E & U & L & Rr).
  exists s'. unfold sbind, modify. rewrite E. split; [done|]. done.
Qed.

Lemma modify_step (f : Scanner R -> Scanner R) (k : ScanM R unit) (s : Scanner R) :
  (modify f ;; k) s = k (f s).
Proof. reflexivity. Qed.

Lemma union_count_set_lhs (s : Scanner R) (b : bool) :
  union_count (set_assign_lhs s b) = union_count s.
Proof. reflexivity. Qed.

(** [scan_field_access] on a union field: one [UnionField] effect when the
    flag is false, none when it is true. *)
Lemma scan_field_access_union (s : Scanner R) (i : Ident) :
  is_union_field (resolve_field_type (resolver s) i) = true ->
  exists s', scan_field_access (Named i) s = Some (tt, s') /\
    union_count s' = union_count s + (if scope_assign_lhs s then 0 else 1).
Proof.
  intros Hu. unfold scan_field_access, sbind, get. rewrite Hu. simpl.
  destruct (scope_assign_lhs s) eqn:L; simpl.
  - exists s. split; [done|lia].
  - destruct (push_effect_step (resolve_field (resolver s) i)
                (UnionField (resolve_field (resolver s) i)) s) as (s' & E & U & _).
    exists s'. split; [exact E|]. rewrite U. lia.
Qed.

(** *** Union field reads inside the left operand of an assignment *)

(** A computation that, started with the assignment flag set, adds no
    [UnionField] effect and leaves the flag set, whenever it returns. *)
Definition Quiet (m : ScanM R unit) : Prop :=
  forall s s', scope_assign_lhs s = true -> m s = Some (tt, s') ->
    union_count s' = union_count s /\ scope_assign_lhs s' = true.

Lemma quiet_ret : Quiet (sret tt).
Proof. intros s s' Hl E. injection E as <-. done. Qed.

Lemma quiet_panic : Quiet panic.
Proof. intros s s' _ E. discriminate. Qed.

Lemma quiet_bind (m k : ScanM R unit) : Quiet m -> Quiet k -> Quiet (m ;; k).
Proof.
  intros Hm Hk s s' Hl E. unfold sbind in E.
  destruct (m s) as [[[] s1]|] eqn:E1; [|discriminate].
  destruct (Hm s s1 Hl E1) as [U1 L1]. destruct (Hk s1 s' L1 E) as [U2 L2].
  split; [congruence|done].
Qed.

Lemma quiet_get (k : Scanner R -> ScanM R unit) :
  (forall s0, Quiet (k s0)) -> Quiet (let* s0 := get in k s0).
Proof. intros Hk s s' Hl E. exact (Hk s s s' Hl E). Qed.

Lemma quiet_modify (f : Scanner R -> Scanner R) :
  (forall s, scope_assign_lhs s = true ->
     union_count (f s) = union_count s /\ scope_assign_lhs (f s) = true) ->
  Quiet (modify f).
Proof. intros Hf s s' Hl E. injection E as <-. by apply Hf. Qed.

Lemma quiet_if (b : bool) (m1 m2 : ScanM R unit) :
  Quiet m1 -> Quiet m2 -> Quiet (if b then m1 else m2).
Proof. by destruct b. Qed.

Fixpoint quiet_for_each_all {A} (f : A -> ScanM R unit) (p : A -> bool)
    (h : forall x, p x = true -> Quiet (f x)) (l : list A) {struct l}
  : forallb p l = true -> Quiet (for_each f l) :=
  match l as l0 return forallb p l0 = true -> Quiet (for_each f l0) with
  | [] => fun _ => quiet_ret
  | x :: l' => fun Hl =>
      quiet_bind _ _ (h x (proj1 (andb_prop _ _ Hl)))
        (quiet_for_each_all f p h l' (proj2 (andb_prop _ _ Hl)))
  end.

Definition quiet_for_opt_all {A} (f : A -> ScanM R unit) (p : A -> bool)
    (h : forall x, p x = true -> Quiet (f x)) (o : option A)
  : opt_all p o = true -> Quiet (for_opt f o) :=
  match o as o0 return opt_all p o0 = true -> Quiet (for_opt f o0) with
  | Some x => h x
  | None => fun _ => quiet_ret
  end.

Ltac quiet_data := intros ? ?; split; [reflexivity|assumption].

Lemma track_quiet (t : Tracker) : Quiet (track t).
Proof. apply quiet_modify. quiet_data. Qed.

Lemma modify_resolver_quiet (f : R -> R) : Quiet (modify_resolver f).
Proof. apply quiet_modify. quiet_data. Qed.

Lemma modify_unsafe_quiet (f : nat -> nat) : Quiet (modify_unsafe f).
Proof. apply quiet_modify. quiet_data. Qed.

Lemma pop_effect_block_quiet : Quiet pop_effect_block.
Proof.
  apply quiet_get. intros s0. destruct (scope_effect_blocks s0);
    [apply quiet_panic|apply quiet_modify; quiet_data].
Qed.

Lemma push_effect_quiet (cp : CanonicalPath) (eff : Effect) :
  (forall t, eff <> UnionField t) -> Quiet (push_effect cp eff).
Proof.
  intros Hne. apply quiet_get. intros s0. apply quiet_modify. intros s Hl.
  rewrite union_count_push. split; [|exact Hl].
  destruct eff; simpl; try lia. exfalso. by eapply Hne.
Qed.

Lemma push_callsite_quiet (callee : CanonicalPath) (ffi : option CanonicalPath)
    (is_unsafe : bool) : Quiet (push_callsite callee ffi is_unsafe).
Proof.
  intros s s' Hl E. unfold push_callsite, sbind, get in E.
  destruct (scope_fns s) as [|fd fds]; [discriminate|].
  unfold modify in E. injection E as <-. split; [|exact Hl].
  unfold union_count. simpl. rewrite List.filter_app, length_app.
  destruct (node_idxs (data s) !! fn_name fd), (node_idxs (data s) !! callee); simpl; lia.
Qed.

Lemma scan_path_quiet (p : Path) : Quiet (scan_path p).
Proof.
  apply quiet_get. intros s0.
  repeat apply quiet_bind.
  - apply quiet_if; [apply push_effect_quiet; discriminate|apply quiet_ret].
  - apply quiet_if; [apply push_effect_quiet; discriminate|apply quiet_ret].
  - destruct (resolve_ffi _ _); [apply push_effect_quiet; discriminate|apply quiet_ret].
Qed.

Lemma scan_closure_quiet (sp : Span) : Quiet (scan_closure sp).
Proof.
  unfold scan_closure. destruct (create_closure_ident sp);
    [apply push_effect_quiet; discriminate|apply quiet_ret].
Qed.

Lemma scan_deref_quiet (x : Expr) : Quiet (scan_deref x).
Proof.
  apply quiet_get. intros s0.
  apply (quiet_for_each_all _ (fun _ => true)); [|by induction (token_idents x)].
  intros i _. apply quiet_if; [apply push_effect_quiet; discriminate|apply quiet_ret].
Qed.

(** With the flag set, [scan_field_access] records nothing. *)
Lemma scan_field_access_quiet (m : Member) : Quiet (scan_field_access m).
Proof.
  destruct m as [i|idx]; [|apply quiet_ret].
  intros s s' Hl E. unfold scan_field_access, sbind, get in E.
  rewrite Hl, orb_true_r in E. injection E as <-. done.
Qed.

Lemma scan_expr_call_field_quiet (m : Member) : Quiet (scan_expr_call_field m).
Proof.
  apply quiet_get. intros s0. destruct m; apply push_callsite_quiet.
Qed.

Lemma scan_expr_call_method_quiet (i : Ident) : Quiet (scan_expr_call_method i).
Proof. apply quiet_get. intros s0. apply push_callsite_quiet. Qed.

Lemma scan_expr_call_quiet : forall f : Expr, Quiet (scan_expr_call f).
Proof.
  fix IH 1. intros f.
  destruct f; cbn [scan_expr_call]; try apply track_quiet.
  - apply scan_expr_call_field_quiet.
  - exact (IH f).
  - apply quiet_get. intros s0. apply push_callsite_quiet.
Qed.

Lemma scan_unsafe_block_quiet (body : ScanM R unit) :
  Quiet body -> Quiet (scan_unsafe_block body).
Proof.
  intros Hb. unfold scan_unsafe_block.
  apply quiet_bind; [apply modify_unsafe_quiet|].
  apply quiet_get. intros s0. destruct (scope_fns s0); [apply quiet_panic|].
  repeat apply quiet_bind; try done.
  - apply quiet_modify. quiet_data.
  - apply pop_effect_block_quiet.
  - apply modify_unsafe_quiet.
Qed.

Lemma scan_fn_quiet (f_sig : Signature) (vis : Visibility) (body : ScanM R unit) :
  Quiet body -> Quiet (scan_fn f_sig vis body).
Proof.
  intros Hb. unfold scan_fn. apply quiet_get. intros s0.
  repeat apply quiet_bind; try done;
    try apply modify_resolver_quiet; try apply pop_effect_block_quiet;
    try (apply quiet_if; [apply modify_unsafe_quiet|apply quiet_ret]);
    try (apply quiet_modify; quiet_data).
Qed.

Lemma scan_foreign_item_quiet (i : ForeignItem) : Quiet (scan_foreign_item i).
Proof.
  destruct i; [apply modify_resolver_quiet|apply track_quiet|apply track_quiet].
Qed.

Lemma scan_impl_trait_path_quiet (unsafety : bool) (tr : Path) (self_ty : option Ident) :
  Quiet (scan_impl_trait_path unsafety tr self_ty).
Proof.
  unfold scan_impl_trait_path. destruct unsafety; [|apply quiet_ret].
  apply quiet_get. intros s0. apply quiet_modify. quiet_data.
Qed.

Lemma scan_trait_quiet (unsafety : bool) (ident : Ident) :
  Quiet (let* s := get in
         let t_name := resolve_def (resolver s) ident in
         if unsafety
         then modify (fun s => set_data s (push_unsafe_trait (data s) t_name))
         else sret tt).
Proof.
  apply quiet_get. intros s0. apply quiet_if; [|apply quiet_ret].
  apply quiet_modify. quiet_data.
Qed.

Lemma quiet_for_each {A} (f : A -> ScanM R unit) (l : list A) :
  (forall x, Quiet (f x)) -> Quiet (for_each f l).
Proof.
  intros Hf. induction l as [|x l IH]; [apply quiet_ret|]. by apply quiet_bind.
Qed.

Definition andl {a b : bool} (H : a && b = true) : a = true := proj1 (andb_prop a b H).
Definition andr {a b : bool} (H : a && b = true) : b = true := proj2 (andb_prop a b H).

(** Scanning syntax that contains no assignment, with the flag set, adds
    no [UnionField] effect and leaves the flag set. *)
Fixpoint scan_expr_quiet (e : Expr) : assign_free_expr e = true -> Quiet (scan_expr e) :=
  match e as e0 return assign_free_expr e0 = true -> Quiet (scan_expr e0) with
  | Array elems => quiet_for_each_all _ _ scan_expr_quiet elems
  | Assign _ _ => fun Hf => False_rect _ (diff_false_true Hf)
  | Async stmts => quiet_for_each_all _ _ scan_fn_statement_quiet stmts
  | Await base => scan_expr_quiet base
  | Binary lhs rhs => fun Hf =>
      quiet_bind _ _ (scan_expr_quiet lhs (andl Hf)) (scan_expr_quiet rhs (andr Hf))
  | Block stmts => quiet_for_each_all _ _ scan_fn_statement_quiet stmts
  | Break o => quiet_for_opt_all _ _ scan_expr_quiet o
  | Call func args => fun Hf =>
      quiet_bind _ _ (quiet_for_each_all _ _ scan_expr_quiet args (andr Hf))
        (scan_expr_call_quiet func)
  | Cast x => scan_expr_quiet x
  | Closure sp => fun _ => scan_closure_quiet sp
  | Continue => fun _ => quiet_ret
  | Field base m => fun Hf => quiet_bind _ _ (scan_expr_quiet base Hf) (scan_field_access_quiet m)
  | ForLoop x body => fun Hf =>
      quiet_bind _ _ (scan_expr_quiet x (andl Hf))
        (quiet_for_each_all _ _ scan_fn_statement_quiet body (andr Hf))
  | Group x => scan_expr_quiet x
  | If cond then_branch else_branch => fun Hf =>
      quiet_bind _ _ (scan_expr_quiet cond (andl (andl Hf)))
        (quiet_bind _ _ (quiet_for_each_all _ _ scan_fn_statement_quiet then_branch (andr (andl Hf)))
           (quiet_for_opt_all _ _ scan_expr_quiet else_branch (andr Hf)))
  | Index x index => fun Hf =>
      quiet_bind _ _ (scan_expr_quiet x (andl Hf)) (scan_expr_quiet index (andr Hf))
  | Let x => scan_expr_quiet x
  | Lit => fun _ => quiet_ret
  | Loop body => quiet_for_each_all _ _ scan_fn_statement_quiet body
  | Macro _ => fun _ => track_quiet TMacros
  | Match x arms => fun Hf =>
      quiet_bind _ _ (scan_expr_quiet x (andl Hf))
        (quiet_for_each_all _ _
           (fun a (Ha : opt_all assign_free_expr (fst a) && assign_free_expr (snd a) = true) =>
              quiet_bind _ _ (quiet_for_opt_all _ _ scan_expr_quiet (fst a) (andl Ha))
                (scan_expr_quiet (snd a) (andr Ha)))
           arms (andr Hf))
  | MethodCall receiver method args => fun Hf =>
      quiet_bind _ _ (scan_expr_quiet receiver (andl Hf))
        (quiet_bind _ _ (quiet_for_each_all _ _ scan_expr_quiet args (andr Hf))
           (scan_expr_call_method_quiet method))
  | Paren x => scan_expr_quiet x
  | PathExpr p => fun _ => scan_path_quiet p
  | Range start end_ => fun Hf =>
      quiet_bind _ _ (quiet_for_opt_all _ _ scan_expr_quiet start (andl Hf))
        (quiet_for_opt_all _ _ scan_expr_quiet end_ (andr Hf))
  | Reference x => scan_expr_quiet x
  | Repeat x len => fun Hf =>
      quiet_bind _ _ (scan_expr_quiet x (andl Hf)) (scan_expr_quiet len (andr Hf))
  | Return o => quiet_for_opt_all _ _ scan_expr_quiet o
  | Struct fields rest => fun Hf =>
      quiet_bind _ _ (quiet_for_each_all _ _ scan_expr_quiet fields (andl Hf))
        (quiet_for_opt_all _ _ scan_expr_quiet rest (andr Hf))
  | Try x => scan_expr_quiet x
  | TryBlock stmts => quiet_for_each_all _ _ scan_fn_statement_quiet stmts
  | Tuple elems => quiet_for_each_all _ _ scan_expr_quiet elems
  | Unary op x => fun Hf =>
      quiet_bind _ _
        (match op as o return Quiet (match o with Deref => scan_deref x | _ => sret tt end) with
         | Deref => scan_deref_quiet x
         | _ => quiet_ret
         end)
        (scan_expr_quiet x Hf)
  | Unsafe stmts => fun Hf =>
      scan_unsafe_block_quiet _ (quiet_for_each_all _ _ scan_fn_statement_quiet stmts Hf)
  | Verbatim => fun _ => quiet_ret
  | While cond body => fun Hf =>
      quiet_bind _ _ (scan_expr_quiet cond (andl Hf))
        (quiet_for_each_all _ _ scan_fn_statement_quiet body (andr Hf))
  | Yield o => quiet_for_opt_all _ _ scan_expr_quiet o
  | Other => fun _ => quiet_ret
  end
with scan_fn_statement_quiet (st : Stmt)
  : assign_free_stmt st = true -> Quiet (scan_fn_statement st) :=
  match st as st0 return assign_free_stmt st0 = true -> Quiet (scan_fn_statement st0) with
  | Local init =>
      match init as i0
        return assign_free_stmt (Local i0) = true -> Quiet (scan_fn_statement (Local i0)) with
      | Some (x, diverge) => fun Hf =>
          quiet_bind _ _ (scan_expr_quiet x (andl Hf))
            (quiet_for_opt_all _ _ scan_expr_quiet diverge (andr Hf))
      | None => fun _ => quiet_ret
      end
  | ExprStmt x => scan_expr_quiet x
  | ItemStmt i => scan_item_quiet i
  | MacroStmt => fun _ => track_quiet TMacros
  end
with scan_item_quiet (i : Item) : assign_free_item i = true -> Quiet (scan_item i) :=
  match i as i0 return assign_free_item i0 = true -> Quiet (scan_item i0) with
  | ItemMod attrs ident content => fun Hf =>
      quiet_if _ _ _ (track_quiet TConditional)
        (match content as c
           return opt_all (forallb assign_free_item) c = true ->
                  Quiet (match c with
                         | Some items =>
                             modify_resolver (fun r => push_mod r ident) ;;
                             for_each scan_item items ;;
                             modify_resolver pop_mod
                         | None => sret tt
                         end) with
         | Some items => fun Hc =>
             quiet_bind _ _ (modify_resolver_quiet _)
               (quiet_bind _ _ (quiet_for_each_all _ _ scan_item_quiet items Hc)
                  (modify_resolver_quiet _))
         | None => fun _ => quiet_ret
         end Hf)
  | ItemUse u => fun _ => modify_resolver_quiet _
  | ItemImpl attrs unsafety impl_id trait_ self_ty items => fun Hf =>
      quiet_if _ _ _ (track_quiet TConditional)
        (quiet_bind _ _ (modify_resolver_quiet _)
           (quiet_bind _ _
              (match trait_ as t return
                 Quiet (for_opt (fun tr => scan_impl_trait_path unsafety tr self_ty) t) with
               | Some tr => scan_impl_trait_path_quiet unsafety tr self_ty
               | None => quiet_ret
               end)
              (quiet_bind _ _ (quiet_for_each_all _ _ scan_impl_item_quiet items Hf)
                 (modify_resolver_quiet _))))
  | ItemFn attrs vis sig block => fun Hf =>
      quiet_if _ _ _ (track_quiet TConditional)
        (scan_fn_quiet sig vis _ (quiet_for_each_all _ _ scan_fn_statement_quiet block Hf))
  | ItemTrait attrs unsafety ident => fun _ =>
      quiet_if _ _ _ (track_quiet TConditional) (scan_trait_quiet unsafety ident)
  | ItemForeignMod attrs items => fun _ =>
      quiet_if _ _ _ (track_quiet TConditional)
        (quiet_bind _ _ (modify_unsafe_quiet _)
           (quiet_bind _ _ (quiet_for_each _ items scan_foreign_item_quiet)
              (modify_unsafe_quiet _)))
  | ItemMacro => fun _ => track_quiet TMacros
  | ItemOther => fun _ => quiet_ret
  end
with scan_impl_item_quiet (ii : ImplItem)
  : assign_free_impl_item ii = true -> Quiet (scan_impl_item ii) :=
  match ii as ii0 return assign_free_impl_item ii0 = true -> Quiet (scan_impl_item ii0) with
  | ImplFn attrs vis sig block => fun Hf =>
      quiet_if _ _ _ (track_quiet TConditional)
        (scan_fn_quiet sig vis _ (quiet_for_each_all _ _ scan_fn_statement_quiet block Hf))
  | ImplMacro => fun _ => track_quiet TMacros
  | ImplVerbatim => fun _ => quiet_ret
  | ImplOther => fun _ => track_quiet TOther
  end.

(** Scanning an expression without assignments, inside a function, with
    the flag set: it runs, adds no [UnionField] effect and leaves the
    flag set. *)
Lemma assign_free_scan_quiet (e : Expr) (s : Scanner R) :
  scope_fns s <> [] -> assign_free_expr e = true -> scope_assign_lhs s = true ->
  exists s', scan_expr e s = Some (tt, s') /\
    union_count s' = union_count s /\ scope_assign_lhs s' = true.
Proof.
  intros Hf Ha Hl.
  destruct (ScanInvariants.scan_expr_safe e s Hf) as (s' & E & _).
  exists s'. split; [done|]. exact (scan_expr_quiet e Ha s s' Hl E).
Qed.

(** An assignment is scanned as: set the flag, scan the left operand,
    clear the flag, scan the right operand. *)
Lemma scan_assign_steps (lhs rhs : Expr) (s s1 : Scanner R) :
  scan_expr lhs (set_assign_lhs s true) = Some (tt, s1) ->
  scan_expr (Assign lhs rhs) s = scan_expr rhs (set_assign_lhs s1 false).
Proof.
  intros E1. cbn [scan_expr]. by rewrite modify_step, (bind_step _ _ _ _ E1), modify_step.
Qed.

(** Every assignment scanned inside a function leaves the flag false,
    whatever its value before. *)
Lemma scan_assign_clears_lhs (lhs rhs : Expr) (s : Scanner R) :
  scope_fns s <> [] ->
  exists s', scan_expr (Assign lhs rhs) s = Some (tt, s') /\
    scope_assign_lhs s' = false.
Proof.
  intros Hf.
  destruct (ScanInvariants.scan_expr_safe lhs (set_assign_lhs s true) Hf)
    as (s1 & E1 & [Fr1 _]).
  destruct (ScanInvariants.scan_expr_safe rhs (set_assign_lhs s1 false))
    as (s' & E2 & [Fr2 _]).
  { cbn. rewrite (ScanInvariants.fr_fns _ _ Fr1). exact Hf. }
  exists s'. split.
  - by rewrite (scan_assign_steps _ _ _ _ E1).
  - exact (ScanInvariants.fr_lhs _ _ Fr2 eq_refl).
Qed.

(** An assignment whose left operand has no assignment: scanning the left
    operand adds no [UnionField] effect, and the right operand is scanned
    with the flag false. *)
Lemma scan_assign_split (lhs rhs : Expr) (s : Scanner R) :
  scope_fns s <> [] -> assign_free_expr lhs = true ->
  exists s1 s', scan_expr lhs (set_assign_lhs s true) = Some (tt, s1) /\
    union_count s1 = union_count s /\
    scan_expr rhs (set_assign_lhs s1 false) = Some (tt, s') /\
    scan_expr (Assign lhs rhs) s = Some (tt, s').
Proof.
  intros Hf Ha.
  destruct (assign_free_scan_quiet lhs (set_assign_lhs s true) Hf Ha eq_refl)
    as (s1 & E1 & U1 & _).
  destruct (ScanInvariants.scan_expr_safe lhs (set_assign_lhs s true) Hf)
    as (s1' & E1' & [Fr1 _]).
  rewrite E1 in E1'. injection E1' as <-.
  destruct (ScanInvariants.scan_expr_safe rhs (set_assign_lhs s1 false))
    as (s' & E2 & _).
  { cbn. rewrite (ScanInvariants.fr_fns _ _ Fr1). exact Hf. }
  exists s1, s'. split_and!; [exact E1|exact U1|exact E2|].
  by rewrite (scan_assign_steps _ _ _ _ E1).
Qed.

(** In [fn main() { a[{ b = 1; u.field }] = 2; }] the nested assignment
    [b = 1] clears the flag, so the union field read after it, still
    inside the left operand, emits one [UnionField] effect. *)
Lemma nested_assign_union_read :
  option_map (fun d => length (List.filter is_union_effect (effects d)))
    (ModResolver.run
       [ModResolver.plain_fn [] "main" 0
          [ExprStmt (Assign (Index (PathExpr ["a"])
                                   (Block [ExprStmt (Assign (PathExpr ["b"]) Lit);
                                           ExprStmt (Field (PathExpr ["u"]) (Named "field"))]))
                            Lit)]]) = Some 1.
Proof. vm_compute. reflexivity. Qed.


End UnionField.

Section Concrete.
Import ModResolver.


(** The scanner run by [run] at its third statement: inside [fn main],
    with the flag false. *)
Definition in_main : Scanner ModRes :=
  mkScanner (mkModRes [] ["field"])
    [mkEffectBlock NormalFn (mkFnDec ["main"] Inherited 0) []] 0 false
    [mkFnDec ["main"] Inherited 0] ScanResults_new [].


(** A file with two definitions of [foo] under different [cfg]s; the
    scanner skips neither ([skip_cfg] only skips [target_os = "linux"] and
    [not (feature = ..)]). *)
Definition two_foo_file : list Item :=
  [plain_fn [CfgList "unix"] "foo" 0 [];
   plain_fn [CfgList "windows"] "foo" 1 []].

(** C10: scanning [two_foo_file] calls [add_fn_dec] twice with the path
    [foo]; the call graph gets two nodes labelled [foo] while [node_idxs]
    keeps only the second, so node 0 is the image of no key and the map is
    not a bijection onto the graph's nodes. *)
Theorem duplicate_fn_breaks_node_idxs_bijection :
  exists d, run two_foo_file = Some d /\
    call_graph_nodes d = [["foo"]; ["foo"]] /\
    node_idxs d = <[["foo"] := 1]> ∅ /\
    ~ CallGraphInv.node_idxs_bijection d.
Proof.
  destruct (run two_foo_file) as [d|] eqn:Erun;
    [|vm_compute in Erun; discriminate].
  assert (En : call_graph_nodes d = [["foo"]; ["foo"]]).
  { vm_compute in Erun. injection Erun as <-. reflexivity. }
  assert (Ei : node_idxs d = <[["foo"] := 1]> ∅).
  { vm_compute in Erun. injection Erun as <-. vm_compute. reflexivity. }
  exists d. split; [done|]. split; [done|]. split; [done|].
  intros [_ Hsurj]. rewrite En in Hsurj.
  destruct (Hsurj 0 ["foo"] eq_refl) as (k & Hk & _).
  rewrite Ei in Hk. rewrite lookup_insert in Hk.
  case_decide; simplify_map_eq.
Qed.

End Concrete.

End ScannerProofs.

(* ===================================================================== *)
(** ** Further properties of the policy lookup and
       [LoCTracker] *)
(* ===================================================================== *)


Module PolicyExtras.
Import PolicyModel PolicyProofs.

(** A policy with one [Allow] and one [Require] statement, and its lookup. *)
Definition two_stmt_policy : Policy :=
  Policy_require_simple (Policy_allow_simple ex_policy "foo" "std::fs") "bar" "libc::open".

Definition two_stmt_lookup : PolicyLookup :=
  default PolicyLookup_empty (from_policy two_stmt_policy).

(** A policy with [Allow] statements only, and its lookup. *)
Definition allow_only_policy : Policy :=
  Policy_allow_simple (Policy_allow_simple ex_policy "foo" "std::fs") "bar" "libc::open".

Definition allow_only_lookup : PolicyLookup :=
  default PolicyLookup_empty (from_policy allow_only_policy).

Ltac destr_stmt :=
  repeat match goal with
  | H : _ \/ _ |- _ => destruct H
  | H : exists _, _ |- _ => destruct H
  | H : _ /\ _ |- _ => destruct H
  | H : Allow _ _ = Allow _ _ |- _ => injection H as <- <-
  | H : Require _ _ = Require _ _ |- _ => injection H as <- <-
  | H : Allow _ _ = Require _ _ |- _ => discriminate H
  | H : Require _ _ = Allow _ _ |- _ => discriminate H
  end.

Lemma add_statements_sets (l0 l : PolicyLookup) (ss : list Statement) (r e : string) :
  add_statements l0 ss = Some l ->
  (e ∈ set_of (allow_sets l) r <->
   e ∈ set_of (allow_sets l0) r \/
   exists re ee, (In (Allow re ee) ss \/ In (Require re ee) ss) /\
                 fn_path re = r /\ fn_path ee = e) /\
  (e ∈ set_of (require_sets l) r <->
   e ∈ set_of (require_sets l0) r \/
   exists re ee, In (Require re ee) ss /\ fn_path re = r /\ fn_path ee = e).
Proof.
  revert l0. induction ss as [|s ss IH]; intros l0 H; simpl in H.
  - injection H as <-. simpl. split; split; [tauto| |tauto|]; intros [?|(?&?&?&?)]; simpl in *; tauto.
  - destruct (add_statement l0 s) as [l1|] eqn:E; [|done].
    destruct (IH _ H) as [IHa IHr]. rewrite IHa, IHr.
    destruct s as [r1 e1|r1 e1|r1]; simpl in E; [..|done]; injection E as <-;
      simpl; rewrite !set_of_entry_insert;
      destruct (decide (fn_path r1 = r)); subst.
  all: clear IH IHa IHr H; split; split; intros Hx;
    rewrite ?elem_of_union, ?elem_of_singleton in *; destr_stmt;
    first [congruence | eauto 12].
Qed.

Lemma set_of_empty (k : string) : set_of ∅ k = ∅.
Proof. done. Qed.

(** The lookup built by [from_policy] holds exactly what the statements
    say: [e] is in the allow set of [r] exactly when some [Allow] or
    [Require] statement has region path [r] and effect path [e], and in the
    require set of [r] exactly when some [Require] statement does. *)
Theorem from_policy_sets_exact (p : Policy) (l : PolicyLookup) (r e : string) :
  from_policy p = Some l ->
  (e ∈ set_of (allow_sets l) r <->
   exists re ee, (In (Allow re ee) (statements p) \/ In (Require re ee) (statements p)) /\
                 fn_path re = r /\ fn_path ee = e) /\
  (e ∈ set_of (require_sets l) r <->
   exists re ee, In (Require re ee) (statements p) /\ fn_path re = r /\ fn_path ee = e).
Proof.
  intros H. destruct (add_statements_sets _ _ _ r e H) as [Ha Hr].
  rewrite Ha, Hr. simpl. rewrite !set_of_empty. set_solver.
Qed.

(** A policy without [Require] statements builds a lookup whose require
    sets are all empty, so [check_edge_bool] accepts every edge. *)
Theorem from_policy_without_require_accepts (p : Policy) (l : PolicyLookup)
    (caller callee : string) :
  from_policy p = Some l ->
  (forall r e : FnCall, ~ In (Require r e) (statements p)) ->
  check_edge_bool l caller callee = true.
Proof.
  intros H Hno. apply check_edge_bool_subset. intros x Hx.
  destruct (add_statements_sets _ _ _ callee x H) as [_ Hr].
  apply Hr in Hx as [Hx|(re & ee & Hin & _)]; [set_solver|].
  by apply Hno in Hin.
Qed.

(** [mark_of_interest l c] adds [c] to its own require set and nothing
    else: an edge into [c] then also needs [c] in the caller's allow set,
    and every other edge is checked as before. *)
Theorem check_edge_bool_mark_of_interest (l : PolicyLookup) (c caller callee : string) :
  check_edge_bool (mark_of_interest l c) caller callee =
  check_edge_bool l caller callee &&
  (negb (bool_decide (callee = c)) || bool_decide (c ∈ set_of (allow_sets l) caller)).
Proof.
  apply Bool.eq_iff_eq_true.
  rewrite andb_true_iff, orb_true_iff, negb_true_iff, bool_decide_eq_false,
    bool_decide_eq_true, !check_edge_bool_subset.
  unfold mark_of_interest; simpl. rewrite set_of_entry_insert.
  case_decide; subst; set_solver.
Qed.

Lemma edge_errors_filter (l : PolicyLookup) (caller : string) (reqs : list string) :
  edge_errors l caller reqs =
  map (fun req => match allow_sets l !! caller with
                  | Some _ => "Allow list for function " ++ caller ++ " missing effect " ++ req
                  | None => "No allow list for function " ++ caller ++ " with effect " ++ req
                  end)
      (filter (fun req => req ∉ set_of (allow_sets l) caller) reqs).
Proof.
  induction reqs as [|req reqs IH]; simpl; [done|].
  rewrite filter_cons. unfold allow_list_contains, set_of in *.
  destruct (allow_sets l !! caller) as [allow|]; simpl.
  - case_bool_decide; case_decide; simpl; rewrite ?IH; done.
  - case_decide; [|set_solver]. simpl. by rewrite IH.
Qed.

(** [check_edge] appends one diagnostic per requirement of the callee
    missing from the caller's allow set, and nothing else: the appended
    messages are distinct, there are as many as missing requirements, and
    each names its requirement, with the [No allow list] wording exactly
    when the caller has no allow-set entry. *)
Theorem check_edge_diagnostics (l : PolicyLookup) (caller callee : string)
    (error_list : list string) :
  exists es,
    check_edge l caller callee error_list = (error_list ++ es)%list /\
    NoDup es /\
    length es = size (set_of (require_sets l) callee ∖ set_of (allow_sets l) caller) /\
    Forall (fun m => exists req,
      req ∈ set_of (require_sets l) callee ∖ set_of (allow_sets l) caller /\
      m = match allow_sets l !! caller with
          | Some _ => "Allow list for function " ++ caller ++ " missing effect " ++ req
          | None => "No allow list for function " ++ caller ++ " with effect " ++ req
          end) es.
Proof.
  set (A := set_of (allow_sets l) caller).
  set (Q := set_of (require_sets l) callee).
  assert (Hreq : iter_requirements l callee = elements Q).
  { unfold iter_requirements, Q, set_of.
    destruct (require_sets l !! callee); simpl; [done|].
    by rewrite elements_empty. }
  unfold check_edge. rewrite check_edge_loop_app, Hreq, edge_errors_filter. fold A.
  eexists; split; [reflexivity|].
  assert (HP : filter (fun req => req ∉ A) (elements Q) ≡ₚ elements (Q ∖ A)).
  { apply NoDup_Permutation.
    - apply NoDup_filter, NoDup_elements.
    - apply NoDup_elements.
    - intros x. rewrite list_elem_of_filter, !elem_of_elements. set_solver. }
  split_and!.
  - apply NoDup_fmap_2; [|apply NoDup_filter, NoDup_elements].
    intros x y. destruct (allow_sets l !! caller); intros Hxy;
      by apply (inj (String.app _)), (inj (String.app _)), (inj (String.app _)) in Hxy.
  - rewrite length_map, HP. done.
  - apply Forall_forall. intros m Hm.
    apply list_elem_of_In, in_map_iff in Hm as (x & <- & Hx).
    exists x. split; [|done].
    apply list_elem_of_In, list_elem_of_filter in Hx as [Hx1 Hx2].
    apply elem_of_elements in Hx2. fold A Q. set_solver.
Qed.

Lemma from_policy_sets_exact_witness :
  from_policy two_stmt_policy = Some two_stmt_lookup /\
  ("libc::open" ∈ set_of (require_sets two_stmt_lookup) "bar" <->
   exists re ee, In (Require re ee) (statements two_stmt_policy) /\
                 fn_path re = "bar" /\ fn_path ee = "libc::open").
Proof.
  assert (H : from_policy two_stmt_policy = Some two_stmt_lookup)
    by (vm_compute; reflexivity).
  destruct (from_policy_sets_exact two_stmt_policy two_stmt_lookup "bar" "libc::open" H)
    as [_ Hr].
  split; [exact H|exact Hr].
Defined.

Lemma from_policy_without_require_accepts_witness :
  from_policy allow_only_policy = Some allow_only_lookup /\
  check_edge_bool allow_only_lookup "baz" "foo" = true.
Proof.
  assert (H : from_policy allow_only_policy = Some allow_only_lookup)
    by (vm_compute; reflexivity).
  split; [exact H|].
  apply (from_policy_without_require_accepts allow_only_policy allow_only_lookup
           "baz" "foo" H).
  intros r e Hin. simpl in Hin. destruct Hin as [Hin|[Hin|[]]]; discriminate.
Defined.

End PolicyExtras.

Module LoCProofs.
Import LoC.

Lemma add_spans_counts (t : LoCTracker) (spans : list (nat * nat)) :
  Forall (fun sp => fst sp <= snd sp) spans ->
  instances (add_spans t spans) = instances t + length spans /\
  as_loc t + length spans <= as_loc (add_spans t spans).
Proof.
  revert t. induction spans as [|[a b] spans IH]; intros t Hs; simpl; [lia|].
  inversion Hs as [|? ? Hab Hs']; subst. simpl in Hab.
  destruct (IH (LoCTracker_add t a b) Hs') as [Hi Hl]. unfold add_spans in *.
  rewrite Hi. unfold LoCTracker_add, as_loc in *.
  destruct (Nat.eqb_spec a b); simpl in *; lia.
Qed.

(** A tracker filled from [LoCTracker::new] counts one instance per span,
    and [as_loc] over-approximates: every span contributes at least one
    line (a zero-size span counts as one, a span over several lines
    counts the difference of its end and start lines).  In particular it
    is empty exactly when [as_loc] is zero. *)
Theorem loc_tracker_over_approximates (spans : list (nat * nat)) :
  Forall (fun sp => fst sp <= snd sp) spans ->
  instances (add_spans LoCTracker_new spans) = length spans /\
  length spans <= as_loc (add_spans LoCTracker_new spans) /\
  (is_empty (add_spans LoCTracker_new spans) = true <->
   as_loc (add_spans LoCTracker_new spans) = 0).
Proof.
  intros Hs. destruct (add_spans_counts LoCTracker_new spans Hs) as [Hi Hl].
  cbn [instances as_loc lines zero_size_lines LoCTracker_new] in Hi, Hl.
  unfold is_empty. rewrite Hi, Nat.eqb_eq. split_and!; [lia|lia|split; [|lia]].
  intros Hl0. by destruct spans.
Qed.

Lemma loc_tracker_over_approximates_witness :
  Forall (fun sp => fst sp <= snd sp) [(3, 3); (5, 9)] /\
  instances (add_spans LoCTracker_new [(3, 3); (5, 9)]) = 2 /\
  2 <= as_loc (add_spans LoCTracker_new [(3, 3); (5, 9)]).
Proof.
  assert (Hs : Forall (fun sp => fst sp <= snd sp) [(3, 3); (5, 9)])
    by (repeat constructor; simpl; lia).
  destruct (loc_tracker_over_approximates _ Hs) as (Hi & Hl & _).
  split_and!; [exact Hs|exact Hi|exact Hl].
Defined.

End LoCProofs.
